(** * A multi-priority FIFO queue with a one-slot readiness signal

  Shallow embedding of [queue.go] and verification of its sequential
  behaviour.

  Modelling choices, all taken from the source:
  - [QueuePriority] is a Go [int]; it is modelled as [Z], so values other
    than the four named constants exist and reach [append].
  - A slice [[]any] is a [list any]; [append(s, x)] is [s ++ [x]] and
    [s[1:]] is the tail.  Writing [nil] into the slot that is about to be
    sliced away is not visible through the slice and is not modelled.
  - [len] returns a Go [int], modelled as [Z] without wrap-around: a slice
    length is bounded by the address space, far below [2^63].
  - The buffered channel [chan struct{}] carries no data, so only its
    capacity and the number of buffered tokens are modelled.  It is never
    closed, so a successful receive always reports [ok = true].
  - Each method runs under the queue's mutex from its first to its last
    statement; the model is the sequential semantics of one critical
    section after another, written in state-passing style. *)

From Equations Require Import Equations.
From Stdlib Require Import List ZArith Lia Bool Permutation.
From Stdlib Require String.
Import ListNotations.

Set Implicit Arguments.

(** ** Priorities *)

Definition QueuePriority := Z.

Definition PriorityLow : QueuePriority := 0%Z.
Definition PriorityNormal : QueuePriority := 1%Z.
Definition PriorityHigh : QueuePriority := 2%Z.
Definition PriorityCritical : QueuePriority := 3%Z.

(** The four named constants, as a boolean test. *)
Definition defined_priority (p : QueuePriority) : bool :=
  (p =? PriorityLow)%Z || (p =? PriorityNormal)%Z ||
  (p =? PriorityHigh)%Z || (p =? PriorityCritical)%Z.

(** Remember the equation when matching on a computed value. *)
Definition inspect {A : Type} (a : A) : {b : A | a = b} := exist _ a eq_refl.

(** ** The signal channel *)

Module Chan.

(** [make(chan struct{}, n)]: capacity [n], nothing buffered. *)
Record t : Type := mk { cap : nat; buf : nat }.

Definition make (n : nat) : t := mk n 0.

(** [select { case c <- struct{}{}: default: }]: deposit a token unless
    the buffer is full.  The boolean tells which branch ran.  No receiver is
    parked on the channel while a critical section runs, so the send goes to
    the buffer or nowhere. *)
Definition try_send (c : t) : bool * t :=
  if buf c <? cap c then (true, mk (cap c) (S (buf c))) else (false, c).

(** [select { case _, ok = <-c: default: }]: withdraw a token if one is
    buffered. *)
Definition try_recv (c : t) : bool * t :=
  match buf c with
  | O => (false, c)
  | S n => (true, mk (cap c) n)
  end.

Lemma try_recv_decreases c c' : try_recv c = (true, c') -> buf c' < buf c.
Proof.
  unfold try_recv. destruct (buf c) eqn:E; intros H; inversion H; subst.
  simpl. lia.
Qed.

(** The loop of [drain]: receive until the [default] branch is taken. *)
Equations? drain (c : t) : t by wf (buf c) lt :=
  drain c with inspect (try_recv c) => {
    | exist _ (true, c') e := drain c';
    | exist _ (false, c') e := c' }.
Proof. apply try_recv_decreases. exact e. Qed.

End Chan.

(** The shape of the queue's channel: capacity one, and at most one token
    buffered. *)
Definition one_slot (c : Chan.t) : Prop := Chan.cap c = 1 /\ Chan.buf c <= 1.

(** ** The queue *)

Section Queue.

(** The payload type [any] and its zero value [nil]. *)
Variable any : Type.
Variable Nil : any.

Record queue : Type := mkQueue {
  signal : Chan.t;
  low : list any;
  norm : list any;
  high : list any;
  crit : list any
}.

Definition set_signal (c : Chan.t) (q : queue) : queue :=
  mkQueue c (low q) (norm q) (high q) (crit q).
Definition set_low (l : list any) (q : queue) : queue :=
  mkQueue (signal q) l (norm q) (high q) (crit q).
Definition set_norm (l : list any) (q : queue) : queue :=
  mkQueue (signal q) (low q) l (high q) (crit q).
Definition set_high (l : list any) (q : queue) : queue :=
  mkQueue (signal q) (low q) (norm q) l (crit q).
Definition set_crit (l : list any) (q : queue) : queue :=
  mkQueue (signal q) (low q) (norm q) (high q) l.

Definition len (s : list any) : Z := Z.of_nat (length s).

Definition NewQueue : queue := mkQueue (Chan.make 1) [] [] [] [].

Definition lenWithoutLock (q : queue) : Z :=
  let qlen := len (low q) in
  let qlen := (qlen + len (norm q))%Z in
  let qlen := (qlen + len (high q))%Z in
  let qlen := (qlen + len (crit q))%Z in
  qlen.

(** [append]: the [switch] has no [default], so any other priority falls
    through to the [select] with the slices untouched. *)
Definition append (data : any) (priority : QueuePriority) (q : queue) : queue :=
  let q :=
    if (priority =? PriorityLow)%Z then set_low (low q ++ [data]) q
    else if (priority =? PriorityNormal)%Z then set_norm (norm q ++ [data]) q
    else if (priority =? PriorityHigh)%Z then set_high (high q ++ [data]) q
    else if (priority =? PriorityCritical)%Z then set_crit (crit q ++ [data]) q
    else q in
  set_signal (snd (Chan.try_send (signal q))) q.

Definition Append (data : any) (q : queue) : queue :=
  append data PriorityNormal q.

Definition AppendPriority (data : any) (priority : QueuePriority)
    (q : queue) : queue :=
  append data priority q.

Definition prepSignal (q : queue) : queue :=
  let '(send, c) := Chan.try_recv (signal q) in
  let q := set_signal c q in
  let send := if negb send && (lenWithoutLock q >? 0)%Z then true else send in
  if send then set_signal (snd (Chan.try_send (signal q))) q else q.

(** [Signal] returns the channel itself; the handle is the [signal] field
    of the resulting state. *)
Definition Signal (q : queue) : Chan.t * queue :=
  let q := prepSignal q in (signal q, q).

Definition drain (q : queue) : queue :=
  set_signal (Chan.drain (signal q)) q.

(** [s[0]] under the guard [len(s) > 0]; the default is never reached. *)
Definition head0 (s : list any) : any := nth 0 s Nil.

Definition Next (q : queue) : (any * bool) * queue :=
  if (len (crit q) >? 0)%Z then
    let data := head0 (crit q) in
    let q := set_crit (tl (crit q)) q in
    ((data, true), prepSignal q)
  else if (len (high q) >? 0)%Z then
    let data := head0 (high q) in
    let q := set_high (tl (high q)) q in
    ((data, true), prepSignal q)
  else if (len (norm q) >? 0)%Z then
    let data := head0 (norm q) in
    let q := set_norm (tl (norm q)) q in
    ((data, true), prepSignal q)
  else if (len (low q) >? 0)%Z then
    let data := head0 (low q) in
    let q := set_low (tl (low q)) q in
    ((data, true), prepSignal q)
  else
    ((Nil, false), drain q).

Definition Peek (q : queue) : (any * bool) * queue :=
  if (len (crit q) >? 0)%Z then ((head0 (crit q), true), q)
  else if (len (high q) >? 0)%Z then ((head0 (high q), true), q)
  else if (len (norm q) >? 0)%Z then ((head0 (norm q), true), q)
  else if (len (low q) >? 0)%Z then ((head0 (low q), true), q)
  else ((Nil, false), q).

Definition Len (q : queue) : Z * queue := (lenWithoutLock q, q).

Definition Empty (q : queue) : bool * queue :=
  let '(n, q) := Len q in ((n =? 0)%Z, q).

(** *** Facts needed to define the loop of [Process] *)

Lemma len_nil : (len [] >? 0)%Z = false.
Proof. reflexivity. Qed.

Lemma len_cons x s : (len (x :: s) >? 0)%Z = true.
Proof. unfold len. simpl length. apply Z.gtb_lt. lia. Qed.

Lemma len_tl x s : len (x :: s) = (len s + 1)%Z.
Proof. unfold len. simpl length. lia. Qed.

Lemma len_nonneg s : (0 <= len s)%Z.
Proof. unfold len. lia. Qed.

Lemma prepSignal_frame q : prepSignal q = set_signal (signal (prepSignal q)) q.
Proof.
  unfold prepSignal. destruct (Chan.try_recv (signal q)) as [send c].
  destruct (if negb send && _ then true else send); reflexivity.
Qed.

Lemma lenWithoutLock_set_signal c q :
  lenWithoutLock (set_signal c q) = lenWithoutLock q.
Proof. reflexivity. Qed.

Lemma lenWithoutLock_prepSignal q :
  lenWithoutLock (prepSignal q) = lenWithoutLock q.
Proof. rewrite prepSignal_frame. reflexivity. Qed.

Lemma lenWithoutLock_nonneg q : (0 <= lenWithoutLock q)%Z.
Proof.
  unfold lenWithoutLock.
  pose proof (len_nonneg (low q)). pose proof (len_nonneg (norm q)).
  pose proof (len_nonneg (high q)). pose proof (len_nonneg (crit q)). lia.
Qed.

(** A successful [Next] removes exactly one element. *)
Lemma Next_found_len q data q' :
  Next q = ((data, true), q') -> lenWithoutLock q = (lenWithoutLock q' + 1)%Z.
Proof.
  unfold Next.
  destruct (crit q) as [|c cs] eqn:Ec; [rewrite len_nil | rewrite len_cons].
  2:{ intros H; inversion H; subst. rewrite lenWithoutLock_prepSignal.
      unfold lenWithoutLock; simpl. rewrite Ec, len_tl. lia. }
  destruct (high q) as [|h hs] eqn:Eh; [rewrite len_nil | rewrite len_cons].
  2:{ intros H; inversion H; subst. rewrite lenWithoutLock_prepSignal.
      unfold lenWithoutLock; simpl. rewrite Eh, len_tl. lia. }
  destruct (norm q) as [|n ns] eqn:En; [rewrite len_nil | rewrite len_cons].
  2:{ intros H; inversion H; subst. rewrite lenWithoutLock_prepSignal.
      unfold lenWithoutLock; simpl. rewrite En, len_tl. lia. }
  destruct (low q) as [|l ls] eqn:El; [rewrite len_nil | rewrite len_cons].
  2:{ intros H; inversion H; subst. rewrite lenWithoutLock_prepSignal.
      unfold lenWithoutLock; simpl. rewrite El, len_tl. lia. }
  intros H; inversion H.
Qed.

(** [Process]: the callback acts on the caller's own state [S], threaded
    explicitly; it has no access to the queue.  The loop calls [Next] until
    it reports not-found; every successful [Next] shortens the queue, which
    is the measure of the recursion. *)
Equations? Process (S : Type) (callback : any -> S -> S) (q : queue) (s : S)
  : S * queue by wf (Z.to_nat (lenWithoutLock q)) lt :=
  Process callback q s with inspect (Next q) => {
    | exist _ ((element, true), q') e :=
        Process callback q' (callback element s);
    | exist _ ((_, false), q') e := (s, q') }.
Proof.
  pose proof (Next_found_len _ e). pose proof (lenWithoutLock_nonneg q'). lia.
Qed.

(** *** Callers *)

(** The outcomes of [n] successive calls of [Next], oldest first. *)
Fixpoint Nexts (n : nat) (q : queue) : list (any * bool) * queue :=
  match n with
  | O => ([], q)
  | S m =>
      let '(r, q) := Next q in
      let '(rs, q) := Nexts m q in
      (r :: rs, q)
  end.

(** A batch of [AppendPriority] calls, in list order. *)
Definition append_all (l : list (any * QueuePriority)) (q : queue) : queue :=
  fold_left (fun q e => AppendPriority (fst e) (snd e) q) l q.

(** The data appended at priority [p], in append order. *)
Definition at_priority (p : QueuePriority) (l : list (any * QueuePriority))
  : list any :=
  map fst (filter (fun e => (snd e =? p)%Z) l).

(** The callback used to observe [Process]: it records its argument. *)
Definition record_call (x : any) (trace : list any) : list any := trace ++ [x].

(** One call on the public interface, or a consumer taking the token from
    the handle that [Signal] returned (without blocking when there is
    none). *)
Inductive op : Type :=
| OpAppend (data : any)
| OpAppendPriority (data : any) (priority : QueuePriority)
| OpSignal
| OpNext
| OpPeek
| OpProcess
| OpEmpty
| OpLen
| OpReceive.

(** What the caller observes from one call. *)
Inductive result : Type :=
| RDone
| RHandle (c : Chan.t)
| RItem (r : any * bool)
| RCalls (trace : list any)
| RBool (b : bool)
| RInt (n : Z)
| RToken (ok : bool).

Definition exec (o : op) (q : queue) : result * queue :=
  match o with
  | OpAppend data => (RDone, Append data q)
  | OpAppendPriority data p => (RDone, AppendPriority data p q)
  | OpSignal => let '(c, q) := Signal q in (RHandle c, q)
  | OpNext => let '(r, q) := Next q in (RItem r, q)
  | OpPeek => let '(r, q) := Peek q in (RItem r, q)
  | OpProcess => let '(tr, q) := Process record_call q [] in (RCalls tr, q)
  | OpEmpty => let '(b, q) := Empty q in (RBool b, q)
  | OpLen => let '(n, q) := Len q in (RInt n, q)
  | OpReceive =>
      let '(ok, c) := Chan.try_recv (signal q) in (RToken ok, set_signal c q)
  end.

(** A single-threaded driver: the calls run one after the other. *)
Fixpoint run (ops : list op) (q : queue) : list result * queue :=
  match ops with
  | [] => ([], q)
  | o :: ops =>
      let '(r, q) := exec o q in
      let '(rs, q) := run ops q in
      (r :: rs, q)
  end.

(** The state a driver reaches from a new queue. *)
Definition after (ops : list op) : queue := snd (run ops NewQueue).

(** Bookkeeping of the driver: append calls made, append calls made with one
    of the four named priorities, and items handed out by [Next] (directly,
    or inside [Process], once per callback invocation). *)
Definition is_append (o : op) : bool :=
  match o with
  | OpAppend _ | OpAppendPriority _ _ => true
  | _ => false
  end.

Definition is_defined_append (o : op) : bool :=
  match o with
  | OpAppend _ => true
  | OpAppendPriority _ p => defined_priority p
  | _ => false
  end.

Definition pops_of (r : result) : nat :=
  match r with
  | RItem (_, true) => 1
  | RCalls tr => length tr
  | _ => 0
  end.

Definition count_appends (ops : list op) : nat :=
  length (filter is_append ops).

Definition count_defined_appends (ops : list op) : nat :=
  length (filter is_defined_append ops).

(** [Peek] hands out nothing; only [OpNext] and [OpProcess] results count. *)
Definition pops_at (o : op) (r : result) : nat :=
  match o with
  | OpNext | OpProcess => pops_of r
  | _ => 0
  end.

Definition count_pops (ops : list op) (rs : list result) : nat :=
  list_sum (map (fun e => pops_at (fst e) (snd e)) (combine ops rs)).

(** The four slices, without the channel. *)
Definition slices (q : queue)
  : list any * list any * list any * list any :=
  (low q, norm q, high q, crit q).

(** What a result tells about the items: a handle or a token only tells
    about the channel. *)
Definition visible (r : result) : result :=
  match r with
  | RHandle _ | RToken _ => RDone
  | _ => r
  end.

(** A token is waiting in the signal channel. *)
Definition pending (q : queue) : bool := 0 <? Chan.buf (signal q).

(** The queued items in the order [Next] hands them out. *)
Definition items (q : queue) : list any :=
  crit q ++ high q ++ norm q ++ low q.

(** *** What a driver puts in and gets out *)

(** The item a call leaves in the queue: none when the priority is not one
    of the four constants. *)
Definition appended_of (o : op) : list any :=
  match o with
  | OpAppend data => [data]
  | OpAppendPriority data p => if defined_priority p then [data] else []
  | _ => []
  end.

(** The items a call hands to the caller: the one [Next] found, or those
    [Process] passed to the callback.  [Peek] hands out nothing. *)
Definition handed_of (o : op) (r : result) : list any :=
  match o, r with
  | OpNext, RItem (data, true) => [data]
  | OpProcess, RCalls trace => trace
  | _, _ => []
  end.

Definition appended (ops : list op) : list any := flat_map appended_of ops.

Definition handed (ops : list op) (rs : list result) : list any :=
  flat_map (fun e => handed_of (fst e) (snd e)) (combine ops rs).

(** The slice that [append] selects for a priority. *)
Definition slice_at (p : QueuePriority) (q : queue) : list any :=
  if (p =? PriorityLow)%Z then low q
  else if (p =? PriorityNormal)%Z then norm q
  else if (p =? PriorityHigh)%Z then high q
  else if (p =? PriorityCritical)%Z then crit q
  else [].

(** The slices that [Next] and [Peek] look at before, and up to, the one of
    priority [p]. *)
Definition at_or_above (p : QueuePriority) (q : queue) : list any :=
  if (p =? PriorityCritical)%Z then crit q
  else if (p =? PriorityHigh)%Z then crit q ++ high q
  else if (p =? PriorityNormal)%Z then crit q ++ high q ++ norm q
  else crit q ++ high q ++ norm q ++ low q.

(** The driver appends every item at the priority [lvl] assigns to it. *)
Definition tagged_op (lvl : any -> QueuePriority) (o : op) : bool :=
  match o with
  | OpAppend data => (lvl data =? PriorityNormal)%Z
  | OpAppendPriority data p => (lvl data =? p)%Z
  | _ => true
  end.

(** Every queued item sits in the slice of the priority [lvl] assigns to
    it. *)
Definition well_tagged (lvl : any -> QueuePriority) (q : queue) : Prop :=
  forall p, Forall (fun x => lvl x = p) (slice_at p q).

(** The items of priority [p] in a list, in order. *)
Definition of_level (lvl : any -> QueuePriority) (p : QueuePriority)
    (l : list any) : list any :=
  filter (fun x => (lvl x =? p)%Z) l.

(** A call on the queue's own interface, as opposed to a consumer taking
    the token from the channel. *)
Definition is_method (o : op) : bool :=
  match o with
  | OpReceive => false
  | _ => true
  end.

(** A non-empty queue has its token. *)
Definition awake (q : queue) : Prop :=
  implb (lenWithoutLock q >? 0)%Z (pending q) = true.

(** An empty queue with an empty channel of capacity [k]. *)
Definition idle (k : nat) : queue := mkQueue (Chan.mk k 0) [] [] [] [].

(** *** A callback that can reach the queue *)

(** [Process] holds no lock while the callback runs, and a Go [func(any)]
    may close over the queue, so on the caller's own goroutine the callback
    can call the queue's methods.  Here the callback receives the queue
    state left by the preceding [Next] and returns the state it leaves,
    besides acting on its own state [St].  Such a loop need not end, so it
    is given fuel: one unit per call of [Next], [None] when it runs out. *)
Fixpoint ProcessRe (fuel : nat) (St : Type)
    (callback : any -> queue -> St -> St * queue) (q : queue) (s : St)
  : option (St * queue) :=
  match fuel with
  | O => None
  | S fuel =>
      let '((element, ok), q) := Next q in
      if ok then
        let '(s, q) := callback element q s in
        ProcessRe fuel callback q s
      else Some (s, q)
  end.

(** The callback [cb], also noting down each argument it is called with. *)
Definition recording (St : Type) (cb : any -> queue -> St -> St * queue)
    (x : any) (q : queue) (ts : list any * St) : (list any * St) * queue :=
  let '(s, q) := cb x q (snd ts) in ((fst ts ++ [x], s), q).

End Queue.

Arguments NewQueue {any}.
Arguments idle {any} k.
Arguments RDone {any}.
Arguments RHandle {any} c.
Arguments RBool {any} b.
Arguments RInt {any} n.
Arguments RToken {any} ok.
Arguments OpSignal {any}.
Arguments OpNext {any}.
Arguments OpPeek {any}.
Arguments OpProcess {any}.
Arguments OpEmpty {any}.
Arguments OpLen {any}.
Arguments OpReceive {any}.

(** ** A concrete payload: strings, with [None] as Go's [nil] *)

Module Demo.
Import String.
Open Scope string_scope.

Definition item := option string.

Definition abc : queue item :=
  AppendPriority (Some "c") PriorityNormal
    (AppendPriority (Some "b") PriorityCritical
      (AppendPriority (Some "a") PriorityLow NewQueue)).

(** A queue that is empty but still has a token in its channel. *)
Definition stale : queue item := mkQueue (Chan.mk 1 1) [] [] [] [].

End Demo.

(** ** Callbacks that call the queue they are fed from *)

Module Reentrant.

(** Integer payloads.  The first callback appends a fresh Low item on each
    of its first two calls and counts its calls; the second appends every
    item back; the third only reads [Len]. *)
Definition append_twice (x : Z) (q : queue Z) (n : nat) : nat * queue Z :=
  (S n,
   if n <? 2 then AppendPriority (100 + Z.of_nat (S n))%Z PriorityLow q
   else q).

Definition append_back (x : Z) (q : queue Z) (n : nat) : nat * queue Z :=
  (S n, Append x q).

Definition sum_of_lens (x : Z) (q : queue Z) (n : Z) : Z * queue Z :=
  ((n + fst (Len q))%Z, q).

End Reentrant.

(** ** Properties *)

Section Facts.

Variable any : Type.
Variable Nil : any.

(** Unfolding by name, fixed before the local shorthands below. *)
Ltac open_Next := unfold Next.
Ltac open_Peek := unfold Peek.
Ltac open_exec := unfold exec.

Local Abbreviation queue := (queue any).
Local Abbreviation Next := (Next Nil).
Local Abbreviation Peek := (Peek Nil).
Local Abbreviation Nexts := (Nexts Nil).
Local Abbreviation Process := (Process Nil).
Local Abbreviation exec := (exec Nil).
Local Abbreviation run := (run Nil).
Local Abbreviation after := (after Nil).

(** *** The channel *)

(** After [funelim], drop the bookkeeping equations on [inspect]. *)
Ltac forget_inspect :=
  repeat match goal with
         | H : sigmaI _ _ _ = sigmaI _ _ _ |- _ => clear H
         end.

Lemma chan_drain_eq c : Chan.drain c = Chan.mk (Chan.cap c) 0.
Proof.
  funelim (Chan.drain c); forget_inspect.
  - match goal with IH : Chan.drain _ = Chan.mk _ _ |- _ => rewrite IH end.
    unfold Chan.try_recv in e.
    destruct (Chan.buf c); inversion e; reflexivity.
  - unfold Chan.try_recv in e. destruct c as [k [|n]]; simpl in e.
    + inversion e. reflexivity.
    + inversion e.
Qed.

(** *** [Next] and [Peek] by cases on the four slices *)

Ltac by_slices q :=
  open_Next; open_Peek;
  destruct (crit q) as [|? ?] eqn:?; [rewrite len_nil | rewrite len_cons];
  [destruct (high q) as [|? ?] eqn:?; [rewrite len_nil | rewrite len_cons];
   [destruct (norm q) as [|? ?] eqn:?; [rewrite len_nil | rewrite len_cons];
    [destruct (low q) as [|? ?] eqn:?; [rewrite len_nil | rewrite len_cons]
    | ] | ] | ].

(** Use the equations that say a slice is empty. *)
Ltac known_empty :=
  repeat match goal with E : _ = [] |- _ => rewrite E end.

Lemma Peek_state q : snd (Peek q) = q.
Proof.
  open_Peek.
  repeat match goal with |- context [if ?b then _ else _] => destruct b end;
    reflexivity.
Qed.

Lemma Peek_result q : fst (Peek q) = fst (Next q).
Proof. by_slices q; reflexivity. Qed.

(** C6: [Peek] answers what the next [Next] answers, and leaves the whole
    state (the four slices, hence [Len], and the signal channel) as it
    was. *)
Theorem Peek_agrees_with_Next_and_frames q :
  fst (Peek q) = fst (Next q) /\
  snd (Peek q) = q /\
  low (snd (Peek q)) = low q /\ norm (snd (Peek q)) = norm q /\
  high (snd (Peek q)) = high q /\ crit (snd (Peek q)) = crit q /\
  fst (Len (snd (Peek q))) = fst (Len q) /\
  signal (snd (Peek q)) = signal q.
Proof.
  split; [apply Peek_result |]. rewrite Peek_state. repeat split.
Qed.

(** C4: on four empty slices [Next] reports not-found, keeps the slices,
    and leaves no token in the channel, whatever was buffered before. *)
Theorem Next_on_empty_drains q :
  crit q = [] -> high q = [] -> norm q = [] -> low q = [] ->
  fst (Next q) = (Nil, false) /\
  crit (snd (Next q)) = [] /\ high (snd (Next q)) = [] /\
  norm (snd (Next q)) = [] /\ low (snd (Next q)) = [] /\
  Chan.buf (signal (snd (Next q))) = 0 /\
  pending (snd (Next q)) = false.
Proof.
  intros Hc Hh Hn Hl. open_Next.
  rewrite Hc, Hh, Hn, Hl, len_nil. simpl.
  unfold pending, drain. simpl. rewrite chan_drain_eq. simpl.
  repeat split; assumption.
Qed.

(** C8: [Empty] holds exactly when [Len] is zero, [Len] being the sum of
    the lengths of the four slices; neither call changes the state. *)
Theorem Empty_iff_Len_zero (q : queue) :
  (fst (Empty q) = true <-> fst (Len q) = 0%Z) /\
  fst (Len q) = (len (low q) + len (norm q) + len (high q) + len (crit q))%Z /\
  snd (Empty q) = q /\ snd (Len q) = q.
Proof.
  unfold Empty, Len. simpl. repeat split.
  - apply Z.eqb_eq.
  - apply Z.eqb_eq.
Qed.

(** *** The queue seen as one list in hand-out order *)

Lemma lenWithoutLock_items (q : queue) :
  lenWithoutLock q = Z.of_nat (length (items q)).
Proof.
  unfold lenWithoutLock, items, len. rewrite !length_app. lia.
Qed.

Lemma items_set_signal c (q : queue) : items (set_signal c q) = items q.
Proof. reflexivity. Qed.

Lemma items_prepSignal (q : queue) : items (prepSignal q) = items q.
Proof. rewrite prepSignal_frame. reflexivity. Qed.

Lemma items_drain (q : queue) : items (drain q) = items q.
Proof. reflexivity. Qed.

Lemma Next_nil q : items q = [] -> Next q = ((Nil, false), drain q).
Proof.
  unfold items. intros H.
  apply app_eq_nil in H as [Hc H]. apply app_eq_nil in H as [Hh H].
  apply app_eq_nil in H as [Hn Hl].
  open_Next. rewrite Hc, Hh, Hn, Hl, len_nil. reflexivity.
Qed.

(** A successful [Next]: the head of [items] is handed out, and the state
    is [prepSignal] of a queue holding the rest with the channel as it
    was. *)
Lemma Next_cons q x r :
  items q = x :: r ->
  exists q0, Next q = ((x, true), prepSignal q0) /\
             items q0 = r /\ signal q0 = signal q.
Proof.
  unfold items. intros H. by_slices q; simpl in H.
  - discriminate.
  - inversion H; subst. eexists; split; [reflexivity|].
    unfold items; simpl. known_empty. auto.
  - inversion H; subst. eexists; split; [reflexivity|].
    unfold items; simpl. known_empty. auto.
  - inversion H; subst. eexists; split; [reflexivity|].
    unfold items; simpl. known_empty. auto.
  - inversion H; subst. eexists; split; [reflexivity|].
    unfold items; simpl. auto.
Qed.

Lemma Nexts_nil k q :
  items q = [] ->
  fst (Nexts k q) = repeat (Nil, false) k /\ items (snd (Nexts k q)) = [].
Proof.
  revert q. induction k as [|k IH]; intros q Hq; simpl.
  - auto.
  - rewrite (Next_nil _ Hq).
    specialize (IH (drain q) Hq).
    destruct (Nexts k (drain q)) as [rs q']. simpl in *.
    destruct IH as [-> ->]. auto.
Qed.

(** Repeated [Next] hands out [items] from the front, then reports
    not-found for ever. *)
Lemma Nexts_items k q :
  fst (Nexts (length (items q) + k) q)
    = map (fun x => (x, true)) (items q) ++ repeat (Nil, false) k /\
  items (snd (Nexts (length (items q) + k) q)) = [].
Proof.
  remember (items q) as r eqn:Hr. revert q Hr.
  induction r as [|x r IH]; intros q Hr.
  - simpl. apply Nexts_nil. auto.
  - symmetry in Hr. destruct (Next_cons _ Hr) as (q0 & HN & Hi & _).
    simpl. rewrite HN.
    specialize (IH (prepSignal q0)). rewrite items_prepSignal in IH.
    specialize (IH (eq_sym Hi)).
    destruct (Nexts (length r + k) (prepSignal q0)) as [rs q'].
    simpl in *. destruct IH as [-> ->]. auto.
Qed.

(** *** Appending *)

Lemma append_frame x p (q : queue) :
  crit (append x p q) =
    crit q ++ (if (p =? PriorityCritical)%Z then [x] else []) /\
  high (append x p q) =
    high q ++ (if (p =? PriorityHigh)%Z then [x] else []) /\
  norm (append x p q) =
    norm q ++ (if (p =? PriorityNormal)%Z then [x] else []) /\
  low (append x p q) =
    low q ++ (if (p =? PriorityLow)%Z then [x] else []) /\
  signal (append x p q) = snd (Chan.try_send (signal q)).
Proof.
  unfold append, PriorityLow, PriorityNormal, PriorityHigh, PriorityCritical.
  destruct (Z.eqb_spec p 0); [subst; simpl; rewrite !app_nil_r; auto |].
  destruct (Z.eqb_spec p 1); [subst; simpl; rewrite !app_nil_r; auto |].
  destruct (Z.eqb_spec p 2); [subst; simpl; rewrite !app_nil_r; auto |].
  destruct (Z.eqb_spec p 3); [subst; simpl; rewrite !app_nil_r; auto |].
  simpl; rewrite !app_nil_r; auto.
Qed.

Lemma at_priority_cons p (x : any) p' l :
  at_priority p ((x, p') :: l) =
    (if (p' =? p)%Z then [x] else []) ++ at_priority p l.
Proof.
  unfold at_priority. simpl. destruct (p' =? p)%Z; reflexivity.
Qed.

Lemma append_all_slices (l : list (any * QueuePriority)) (q : queue) :
  crit (append_all l q) = crit q ++ at_priority PriorityCritical l /\
  high (append_all l q) = high q ++ at_priority PriorityHigh l /\
  norm (append_all l q) = norm q ++ at_priority PriorityNormal l /\
  low (append_all l q) = low q ++ at_priority PriorityLow l.
Proof.
  revert q. induction l as [|[x p] l IH]; intros q.
  - unfold at_priority; simpl. rewrite !app_nil_r. auto.
  - change (append_all ((x, p) :: l) q) with (append_all l (append x p q)).
    destruct (IH (append x p q)) as (Hc & Hh & Hn & Hl).
    destruct (append_frame x p q) as (Ac & Ah & An & Al & _).
    rewrite Hc, Hh, Hn, Hl, Ac, Ah, An, Al, !at_priority_cons, <- !app_assoc.
    auto.
Qed.

(** The items of a batch whose priority is one of the four constants,
    regrouped by level, are the same items. *)
Lemma regroup_defined (l : list (any * QueuePriority)) :
  Permutation
    (map fst (filter (fun e => defined_priority (snd e)) l))
    (at_priority PriorityCritical l ++ at_priority PriorityHigh l ++
     at_priority PriorityNormal l ++ at_priority PriorityLow l).
Proof.
  induction l as [|[x p] l IH]; [constructor|].
  rewrite !at_priority_cons. simpl filter. simpl snd.
  unfold defined_priority, PriorityLow, PriorityNormal, PriorityHigh,
    PriorityCritical in *.
  destruct (Z.eqb_spec p 0); [subst; simpl |].
  { rewrite !app_assoc. apply Permutation_cons_app.
    rewrite <- !app_assoc. exact IH. }
  destruct (Z.eqb_spec p 1); [subst; simpl |].
  { rewrite app_assoc. apply Permutation_cons_app.
    rewrite <- !app_assoc. exact IH. }
  destruct (Z.eqb_spec p 2); [subst; simpl |].
  { apply Permutation_cons_app. exact IH. }
  destruct (Z.eqb_spec p 3); [subst; simpl |].
  { constructor. exact IH. }
  simpl. exact IH.
Qed.

(** C1: after any batch of appends to a new queue, successive [Next] calls
    hand out all Critical items, then all High, then all Normal, then all
    Low, each level in append order, and report not-found from then on.
    These are exactly the items appended at one of the four levels. *)
Theorem Next_order_by_priority_then_fifo
    (l : list (any * QueuePriority)) (k : nat) :
  let out := at_priority PriorityCritical l ++ at_priority PriorityHigh l ++
             at_priority PriorityNormal l ++ at_priority PriorityLow l in
  fst (Nexts (length out + k) (append_all l NewQueue))
    = map (fun x => (x, true)) out ++ repeat (Nil, false) k /\
  Permutation (map fst (filter (fun e => defined_priority (snd e)) l)) out.
Proof.
  intros out. split; [| apply regroup_defined].
  assert (Hi : items (append_all l NewQueue) = out).
  { unfold items.
    destruct (append_all_slices l NewQueue) as (-> & -> & -> & ->).
    reflexivity. }
  rewrite <- Hi. apply Nexts_items.
Qed.

(** *** [Process] *)

Lemma Next_cases (q : queue) :
  (items q = [] /\ Next q = ((Nil, false), drain q)) \/
  (exists x r q0, items q = x :: r /\ Next q = ((x, true), prepSignal q0) /\
                  items q0 = r /\ signal q0 = signal q).
Proof.
  destruct (items q) as [|x r] eqn:E.
  - left. split; [reflexivity | apply Next_nil; exact E].
  - right. destruct (Next_cons _ E) as (q0 & H). exists x, r, q0. tauto.
Qed.

Lemma fold_record_call (l acc : list any) :
  fold_left (fun tr x => record_call x tr) l acc = acc ++ l.
Proof.
  revert acc. induction l as [|x l IH]; intros acc; simpl.
  - rewrite app_nil_r. reflexivity.
  - rewrite IH. unfold record_call. rewrite <- app_assoc. reflexivity.
Qed.

(** [Process] feeds [items] to the callback from the front and stops in
    the state that one more [Next] than there are items leads to. *)
Lemma Process_items (S : Type) (cb : any -> S -> S) (q : queue) (s : S) :
  Process cb q s =
    (fold_left (fun s x => cb x s) (items q) s,
     snd (Nexts (length (items q) + 1) q)).
Proof.
  funelim (Process cb q s); forget_inspect.
  - destruct (Next_cases q) as [[_ HN] | (x & r & q0 & Hi & HN & Hr & _)];
      rewrite HN in e; inversion e; subst.
    match goal with IH : _ = (fold_left _ _ _, _) |- _ => rewrite IH end.
    rewrite Hi, items_prepSignal. simpl. rewrite HN.
    destruct (Nexts (length (items q0) + 1) (prepSignal q0)); reflexivity.
  - destruct (Next_cases q) as [[Hi HN] | (x & r & q0 & Hi & HN & Hr & _)];
      rewrite HN in e; inversion e; subst.
    rewrite Hi. simpl. rewrite HN. reflexivity.
Qed.

Lemma Process_empties (S : Type) (cb : any -> S -> S) (q : queue) (s : S) :
  items (snd (Process cb q s)) = [].
Proof. rewrite Process_items. simpl. apply Nexts_items. Qed.

(** With a callback that has no access to the queue, [Process] is a total
    function of the queue state, so it returns from every state.  The callback runs once per queued item ([Len] times),
    on the items that the same number of [Next] calls would hand out and in
    that order, and the queue is empty afterwards. *)
Theorem Process_runs_Len_times_and_empties (q : queue) :
  let trace := fst (Process (@record_call any) q []) in
  let q' := snd (Process (@record_call any) q []) in
  Z.of_nat (length trace) = fst (Len q) /\
  fst (Nexts (length trace) q) = map (fun x => (x, true)) trace /\
  fst (Len q') = 0%Z /\
  (forall (S : Type) (cb : any -> S -> S) (s : S),
     Process cb q s = (fold_left (fun s x => cb x s) trace s, q')).
Proof.
  intros trace q'. subst trace q'. rewrite !Process_items. simpl fst; simpl snd.
  rewrite fold_record_call. simpl app.
  repeat split.
  - unfold Len. simpl. symmetry. apply lenWithoutLock_items.
  - pose proof (Nexts_items 0 q) as [H _].
    rewrite Nat.add_0_r in H. rewrite H. simpl. apply app_nil_r.
  - unfold Len. simpl. rewrite lenWithoutLock_items.
    pose proof (Nexts_items 1 q) as [_ H]. rewrite H. reflexivity.
  - intros S cb s. apply Process_items.
Qed.

(** *** The one-slot channel invariant *)

Lemma one_slot_cases c :
  one_slot c -> c = Chan.mk 1 0 \/ c = Chan.mk 1 1.
Proof.
  destruct c as [k b]. unfold one_slot. simpl. intros [-> Hb].
  destruct b as [|[|b]]; auto. lia.
Qed.

Lemma try_send_one_slot c :
  one_slot c -> snd (Chan.try_send c) = Chan.mk 1 1.
Proof. intros H. destruct (one_slot_cases H) as [-> | ->]; reflexivity. Qed.

Lemma try_recv_one_slot c :
  one_slot c -> snd (Chan.try_recv c) = Chan.mk 1 0.
Proof. intros H. destruct (one_slot_cases H) as [-> | ->]; reflexivity. Qed.

(** What [prepSignal] leaves in the channel: a token if one was there, or
    if the queue holds something; it never takes a token away. *)
Lemma prepSignal_signal (q : queue) :
  one_slot (signal q) ->
  signal (prepSignal q) =
    Chan.mk 1 (if pending q || (lenWithoutLock q >? 0)%Z then 1 else 0).
Proof.
  intros H. unfold prepSignal, pending.
  destruct (one_slot_cases H) as [-> | ->];
    unfold Chan.try_recv; cbn [Chan.buf Chan.cap negb andb orb Nat.ltb Nat.leb];
    rewrite ?lenWithoutLock_set_signal.
  - destruct (lenWithoutLock q >? 0)%Z; reflexivity.
  - reflexivity.
Qed.

Lemma prepSignal_one_slot (q : queue) :
  one_slot (signal q) -> one_slot (signal (prepSignal q)).
Proof.
  intros H. rewrite (prepSignal_signal _ H).
  destruct (pending q || _); split; simpl; lia.
Qed.

Lemma append_one_slot x p (q : queue) :
  one_slot (signal q) -> signal (append x p q) = Chan.mk 1 1.
Proof.
  intros H. destruct (append_frame x p q) as (_ & _ & _ & _ & ->).
  apply try_send_one_slot, H.
Qed.

Lemma Next_one_slot (q : queue) :
  one_slot (signal q) -> one_slot (signal (snd (Next q))).
Proof.
  intros H.
  destruct (Next_cases q) as [[_ ->] | (x & r & q0 & _ & -> & _ & Hs)]; simpl.
  - rewrite chan_drain_eq. destruct H as [-> _]. split; simpl; lia.
  - apply prepSignal_one_slot. rewrite Hs. exact H.
Qed.

Lemma Nexts_one_slot n (q : queue) :
  one_slot (signal q) -> one_slot (signal (snd (Nexts n q))).
Proof.
  revert q. induction n as [|n IH]; intros q H; simpl; [exact H|].
  pose proof (Next_one_slot _ H) as H'.
  destruct (Next q) as [r q1]. simpl in H'.
  specialize (IH _ H'). destruct (Nexts n q1). exact IH.
Qed.

Lemma exec_one_slot o (q : queue) :
  one_slot (signal q) -> one_slot (signal (snd (exec o q))).
Proof.
  intros H. destruct o; open_exec.
  - cbn [snd]. unfold Append. rewrite (append_one_slot _ _ _ H).
    split; simpl; lia.
  - cbn [snd]. unfold AppendPriority. rewrite (append_one_slot _ _ _ H).
    split; simpl; lia.
  - unfold Signal. cbn [snd]. apply prepSignal_one_slot, H.
  - pose proof (Next_one_slot _ H). destruct (Next q). assumption.
  - pose proof (Peek_state q) as Hq.
    destruct (Peek q) as [r q1]. simpl in Hq. subst q1. exact H.
  - rewrite Process_items. cbn [snd]. apply Nexts_one_slot, H.
  - exact H.
  - exact H.
  - pose proof (try_recv_one_slot H) as E.
    destruct (Chan.try_recv (signal q)) as [ok c]. simpl in *. subst c.
    split; simpl; lia.
Qed.

Lemma run_one_slot ops (q : queue) :
  one_slot (signal q) -> one_slot (signal (snd (run ops q))).
Proof.
  revert q. induction ops as [|o ops IH]; intros q H; simpl; [exact H|].
  pose proof (exec_one_slot o _ H) as H'.
  destruct (exec o q) as [r q1]. simpl in H'.
  specialize (IH _ H'). destruct (run ops q1). exact IH.
Qed.

Lemma after_one_slot ops : one_slot (signal (after ops)).
Proof. apply run_one_slot. split; simpl; lia. Qed.

(** C3: whatever calls a driver makes on a new queue, and however consumers
    take tokens in between, the channel keeps capacity one and never buffers
    more than one token. *)
Theorem signal_holds_at_most_one_token (ops : list (op any)) :
  Chan.buf (signal (after ops)) <= 1 /\ Chan.cap (signal (after ops)) = 1.
Proof. destruct (after_one_slot ops) as [Hc Hb]. split; assumption. Qed.

(** *** The signal after [Next] and [Signal] *)

Lemma pending_prepSignal (q : queue) :
  one_slot (signal q) ->
  pending (prepSignal q) = pending q || (lenWithoutLock q >? 0)%Z.
Proof.
  intros H. unfold pending at 1. rewrite (prepSignal_signal _ H).
  destruct (pending q || _); reflexivity.
Qed.

Lemma pending_drain (q : queue) : pending (drain q) = false.
Proof. unfold pending, drain. simpl. rewrite chan_drain_eq. reflexivity. Qed.

Lemma pending_Next (q : queue) :
  one_slot (signal q) ->
  pending (snd (Next q)) =
    snd (fst (Next q)) &&
    (pending q || (lenWithoutLock (snd (Next q)) >? 0)%Z).
Proof.
  intros H.
  destruct (Next_cases q) as [[_ ->] | (x & r & q0 & _ & -> & _ & Hs)];
    cbn [fst snd andb].
  - apply pending_drain.
  - rewrite lenWithoutLock_prepSignal, pending_prepSignal by (rewrite Hs; exact H).
    unfold pending. rewrite Hs. reflexivity.
Qed.

Lemma Next_not_found_empty (q : queue) :
  snd (fst (Next q)) = false -> lenWithoutLock (snd (Next q)) = 0%Z.
Proof.
  destruct (Next_cases q) as [[Hi ->] | (x & r & q0 & _ & -> & _ & _)];
    cbn [fst snd]; [intros _ | discriminate].
  rewrite lenWithoutLock_items, items_drain, Hi. reflexivity.
Qed.

(** C2, as the code has it: in any state a driver can reach, after [Next]
    a token is pending exactly when an item was found and either a token
    was already pending before the call or items remain; after [Signal] a
    token is pending exactly when one was pending before or the queue is
    not empty.  In both cases a non-empty queue has its token. *)
Theorem signal_after_Next_and_Signal (ops : list (op any)) :
  let q := after ops in
  pending (snd (Next q)) =
    snd (fst (Next q)) &&
    (pending q || (lenWithoutLock (snd (Next q)) >? 0)%Z) /\
  pending (snd (Signal q)) =
    pending q || (lenWithoutLock (snd (Signal q)) >? 0)%Z /\
  implb (lenWithoutLock (snd (Next q)) >? 0)%Z (pending (snd (Next q))) = true /\
  implb (lenWithoutLock (snd (Signal q)) >? 0)%Z (pending (snd (Signal q)))
    = true.
Proof.
  intros q. pose proof (after_one_slot ops) as H. fold q in H.
  assert (HS : pending (snd (Signal q)) =
               pending q || (lenWithoutLock (snd (Signal q)) >? 0)%Z).
  { unfold Signal. cbn [snd].
    rewrite lenWithoutLock_prepSignal. apply pending_prepSignal, H. }
  repeat split.
  - apply pending_Next, H.
  - exact HS.
  - rewrite (pending_Next _ H).
    destruct (snd (fst (Next q))) eqn:E; cbn [andb].
    + destruct (lenWithoutLock (snd (Next q)) >? 0)%Z; cbn;
        [apply orb_true_r | reflexivity].
    + rewrite (Next_not_found_empty _ E). reflexivity.
  - rewrite HS.
    destruct (lenWithoutLock (snd (Signal q)) >? 0)%Z; cbn;
      [apply orb_true_r | reflexivity].
Qed.

(** *** Length bookkeeping *)

Lemma len_snoc (s : list any) x : len (s ++ [x]) = (len s + 1)%Z.
Proof. unfold len. rewrite length_app. simpl. lia. Qed.

Lemma append_len x p (q : queue) :
  lenWithoutLock (append x p q) =
    (lenWithoutLock q + (if defined_priority p then 1 else 0))%Z.
Proof.
  unfold append, defined_priority,
    PriorityLow, PriorityNormal, PriorityHigh, PriorityCritical.
  rewrite lenWithoutLock_set_signal.
  destruct (Z.eqb_spec p 0);
    [unfold lenWithoutLock; cbn; rewrite len_snoc; lia |].
  destruct (Z.eqb_spec p 1);
    [unfold lenWithoutLock; cbn; rewrite len_snoc; lia |].
  destruct (Z.eqb_spec p 2);
    [unfold lenWithoutLock; cbn; rewrite len_snoc; lia |].
  destruct (Z.eqb_spec p 3);
    [unfold lenWithoutLock; cbn; rewrite len_snoc; lia |].
  cbn. lia.
Qed.

Lemma Next_len (q : queue) :
  lenWithoutLock (snd (Next q)) =
    (lenWithoutLock q - (if snd (fst (Next q)) then 1 else 0))%Z.
Proof.
  destruct (Next_cases q) as [[_ ->] | (x & r & q0 & Hi & -> & Hr & _)];
    cbn [fst snd].
  - unfold drain. rewrite lenWithoutLock_set_signal. lia.
  - rewrite lenWithoutLock_prepSignal, !lenWithoutLock_items, Hi, Hr.
    simpl length. lia.
Qed.

Lemma exec_len o (q : queue) :
  lenWithoutLock (snd (exec o q)) =
    (lenWithoutLock q + (if is_defined_append o then 1 else 0)
     - Z.of_nat (pops_at o (fst (exec o q))))%Z.
Proof.
  destruct o; open_exec.
  - cbn [fst snd pops_at is_defined_append]. unfold Append.
    rewrite append_len. cbn. lia.
  - cbn [fst snd pops_at is_defined_append]. unfold AppendPriority.
    rewrite append_len. lia.
  - unfold Signal. cbn [fst snd pops_at is_defined_append].
    rewrite lenWithoutLock_prepSignal. lia.
  - pose proof (Next_len q) as H.
    destruct (Next q) as [[x [|]] q1]; cbn in *; lia.
  - pose proof (Peek_state q) as H.
    destruct (Peek q) as [r q1]. cbn in *. subst q1. lia.
  - rewrite Process_items. cbn [fst snd pops_at pops_of is_defined_append].
    rewrite fold_record_call. cbn [app].
    rewrite (lenWithoutLock_items q), (lenWithoutLock_items (snd _)).
    pose proof (Nexts_items 1 q) as [_ ->]. simpl length. lia.
  - cbn. lia.
  - cbn. lia.
  - destruct (Chan.try_recv (signal q)) as [ok c]. cbn [fst snd pops_at].
    rewrite lenWithoutLock_set_signal. cbn. lia.
Qed.

Lemma count_pops_cons o ops r rs :
  count_pops (o :: ops) (r :: rs) = pops_at o r + @count_pops any ops rs.
Proof. reflexivity. Qed.

Lemma count_defined_appends_cons o ops :
  Z.of_nat (@count_defined_appends any (o :: ops)) =
    ((if is_defined_append o then 1 else 0)
     + Z.of_nat (count_defined_appends ops))%Z.
Proof.
  unfold count_defined_appends. simpl filter.
  destruct (is_defined_append o); simpl length; lia.
Qed.

Lemma run_len ops (q : queue) :
  lenWithoutLock (snd (run ops q)) =
    (lenWithoutLock q + Z.of_nat (count_defined_appends ops)
     - Z.of_nat (count_pops ops (fst (run ops q))))%Z.
Proof.
  revert q. induction ops as [|o ops IH]; intros q.
  - cbn. lia.
  - simpl run. pose proof (exec_len o q) as Ho.
    destruct (exec o q) as [r q1]. specialize (IH q1).
    destruct (run ops q1) as [rs q2]. cbn [fst snd] in *.
    rewrite count_pops_cons, count_defined_appends_cons. lia.
Qed.

(** C7, as the code has it: along any run of a single-threaded driver on a
    new queue, [Len] is the number of append calls made with one of the four
    named priorities minus the number of items handed out by [Next]; each
    such append adds exactly one, an append with any other priority adds
    nothing, and each [Next] removes one exactly when it finds an item. *)
Theorem Len_is_defined_appends_minus_pops (ops : list (op any)) :
  let rs := fst (run ops NewQueue) in
  let q := snd (run ops NewQueue) in
  fst (Len q) =
    (Z.of_nat (count_defined_appends ops) - Z.of_nat (count_pops ops rs))%Z /\
  (forall x p (q0 : queue),
     fst (Len (AppendPriority x p q0)) =
       (fst (Len q0) + (if defined_priority p then 1 else 0))%Z) /\
  (forall x (q0 : queue), fst (Len (Append x q0)) = (fst (Len q0) + 1)%Z) /\
  (forall q0 : queue,
     fst (Len (snd (Next q0))) =
       (fst (Len q0) - (if snd (fst (Next q0)) then 1 else 0))%Z).
Proof.
  intros rs q. subst rs q. unfold Len. cbn [fst]. repeat split.
  - rewrite run_len. reflexivity.
  - intros. apply append_len.
  - intros. unfold Append. rewrite append_len. reflexivity.
  - intros. apply Next_len.
Qed.

(** *** The items do not depend on the channel *)

Lemma slices_inv (q1 q2 : queue) :
  slices q1 = slices q2 -> q2 = set_signal (signal q2) q1.
Proof.
  destruct q1, q2. unfold slices, set_signal. simpl.
  intros H. inversion H. reflexivity.
Qed.

Lemma slices_prepSignal (q : queue) : slices (prepSignal q) = slices q.
Proof. rewrite prepSignal_frame. reflexivity. Qed.

Lemma Next_set_signal c (q : queue) :
  fst (Next (set_signal c q)) = fst (Next q) /\
  slices (snd (Next (set_signal c q))) = slices (snd (Next q)).
Proof.
  open_Next. cbn [crit high norm low set_signal].
  repeat match goal with |- context [if ?b then _ else _] => destruct b end;
    cbn [fst snd]; rewrite ?slices_prepSignal; split; reflexivity.
Qed.

Lemma Next_slices (q1 q2 : queue) :
  slices q1 = slices q2 ->
  fst (Next q1) = fst (Next q2) /\
  slices (snd (Next q1)) = slices (snd (Next q2)).
Proof.
  intros H. rewrite (slices_inv H).
  destruct (Next_set_signal (signal q2) q1) as [-> ->]. auto.
Qed.

Lemma Nexts_slices n (q1 q2 : queue) :
  slices q1 = slices q2 ->
  fst (Nexts n q1) = fst (Nexts n q2) /\
  slices (snd (Nexts n q1)) = slices (snd (Nexts n q2)).
Proof.
  revert q1 q2. induction n as [|n IH]; intros q1 q2 H; simpl; [auto|].
  destruct (Next_slices H) as [Hr Hs].
  destruct (Next q1) as [r1 q1'], (Next q2) as [r2 q2']. cbn [fst snd] in *.
  destruct (IH _ _ Hs) as [Hrs Hss].
  destruct (Nexts n q1'), (Nexts n q2'). cbn [fst snd] in *.
  subst. auto.
Qed.

Lemma items_slices (q1 q2 : queue) : slices q1 = slices q2 -> items q1 = items q2.
Proof. unfold slices, items. intros H. inversion H. congruence. Qed.

Lemma lenWithoutLock_slices (q1 q2 : queue) :
  slices q1 = slices q2 -> lenWithoutLock q1 = lenWithoutLock q2.
Proof. intros H. rewrite !lenWithoutLock_items, (items_slices H). auto. Qed.

Lemma append_slices x p (q1 q2 : queue) :
  slices q1 = slices q2 -> slices (append x p q1) = slices (append x p q2).
Proof.
  intros H. unfold slices in *. inversion H.
  destruct (append_frame x p q1) as (-> & -> & -> & -> & _).
  destruct (append_frame x p q2) as (-> & -> & -> & -> & _).
  congruence.
Qed.

Lemma exec_slices o (q1 q2 : queue) :
  slices q1 = slices q2 ->
  visible (fst (exec o q1)) = visible (fst (exec o q2)) /\
  slices (snd (exec o q1)) = slices (snd (exec o q2)).
Proof.
  intros H. destruct o; open_exec.
  - cbn [fst snd]. split; [reflexivity | apply append_slices, H].
  - cbn [fst snd]. split; [reflexivity | apply append_slices, H].
  - unfold Signal. cbn [fst snd visible]. rewrite !slices_prepSignal. auto.
  - destruct (Next_slices H) as [Hr Hs].
    destruct (Next q1), (Next q2). cbn [fst snd] in *. subst. auto.
  - destruct (Next_slices H) as [Hr _].
    rewrite <- !Peek_result in Hr.
    pose proof (Peek_state q1) as H1. pose proof (Peek_state q2) as H2.
    destruct (Peek q1), (Peek q2). cbn [fst snd] in *. subst. auto.
  - rewrite !Process_items. cbn [fst snd].
    rewrite (items_slices H). split; [reflexivity|].
    apply Nexts_slices, H.
  - unfold Empty, Len. cbn [fst snd].
    rewrite (lenWithoutLock_slices H). auto.
  - unfold Len. cbn [fst snd]. rewrite (lenWithoutLock_slices H). auto.
  - destruct (Chan.try_recv (signal q1)), (Chan.try_recv (signal q2)).
    cbn [fst snd visible]. split; [reflexivity | exact H].
Qed.

Lemma run_slices ops (q1 q2 : queue) :
  slices q1 = slices q2 ->
  map (@visible any) (fst (run ops q1)) =
    map (@visible any) (fst (run ops q2)) /\
  slices (snd (run ops q1)) = slices (snd (run ops q2)).
Proof.
  revert q1 q2. induction ops as [|o ops IH]; intros q1 q2 H; simpl; [auto|].
  destruct (exec_slices o H) as [Hr Hs].
  destruct (exec o q1) as [r1 q1'], (exec o q2) as [r2 q2'].
  cbn [fst snd] in *. destruct (IH _ _ Hs) as [Hrs Hss].
  destruct (run ops q1'), (run ops q2'). cbn [fst snd map] in *.
  rewrite Hr, Hrs. auto.
Qed.

Lemma append_undefined x p (q : queue) :
  defined_priority p = false ->
  append x p q = set_signal (snd (Chan.try_send (signal q))) q.
Proof.
  unfold defined_priority, append. intros H.
  repeat (apply orb_false_iff in H as [H ?]).
  repeat match goal with E : (_ =? _)%Z = false |- _ => rewrite E; clear E end.
  reflexivity.
Qed.

(** C9: in any state a driver can reach, [AppendPriority] with a priority
    that is none of the four constants leaves the four slices and [Len] as
    they were; [Next] and [Peek] answer as before, and so does every later
    run of calls, as far as items are concerned.  The call still does its
    non-blocking send, which deposits a token exactly when none was pending,
    so a token is pending afterwards. *)
Theorem undefined_priority_append_discards
    (ops : list (op any)) (x : any) (p : QueuePriority) :
  defined_priority p = false ->
  let q := after ops in
  let q' := AppendPriority x p q in
  low q' = low q /\ norm q' = norm q /\ high q' = high q /\ crit q' = crit q /\
  fst (Len q') = fst (Len q) /\
  fst (Next q') = fst (Next q) /\
  fst (Peek q') = fst (Peek q) /\
  (forall later,
     map (@visible any) (fst (run later q')) =
     map (@visible any) (fst (run later q))) /\
  signal q' = snd (Chan.try_send (signal q)) /\
  fst (Chan.try_send (signal q)) = negb (pending q) /\
  pending q' = true.
Proof.
  intros Hp q q'. subst q'. unfold AppendPriority.
  rewrite (append_undefined x p q Hp).
  assert (Hs : slices (set_signal (snd (Chan.try_send (signal q))) q)
               = slices q) by reflexivity.
  pose proof (after_one_slot ops) as H1. fold q in H1.
  repeat split.
  - apply Next_slices, Hs.
  - rewrite !Peek_result. apply Next_slices, Hs.
  - intros later. apply run_slices, Hs.
  - unfold pending. destruct (one_slot_cases H1) as [-> | ->]; reflexivity.
  - unfold pending. cbn [signal set_signal].
    rewrite (try_send_one_slot H1). reflexivity.
Qed.

(** ** Further properties of the code *)

(** *** Found and empty *)

Lemma set_signal_same (q : queue) : set_signal (signal q) q = q.
Proof. destruct q; reflexivity. Qed.

Lemma Peek_items (q : queue) :
  fst (Peek q) = match items q with
                 | [] => (Nil, false)
                 | x :: _ => (x, true)
                 end.
Proof.
  rewrite Peek_result.
  destruct (Next_cases q) as [[-> ->] | (x & r & q0 & -> & -> & _)];
    reflexivity.
Qed.

(** X1: [Peek] and [Next] report an item exactly when [Empty] says the
    queue is not empty, that is when [Len] is positive. *)
Theorem found_iff_not_Empty (q : queue) :
  snd (fst (Peek q)) = negb (fst (Empty q)) /\
  snd (fst (Next q)) = negb (fst (Empty q)) /\
  snd (fst (Next q)) = (fst (Len q) >? 0)%Z.
Proof.
  rewrite Peek_result. unfold Empty, Len. cbn [fst snd].
  rewrite lenWithoutLock_items.
  destruct (Next_cases q) as [[-> ->] | (x & r & q0 & -> & -> & _)];
    cbn [fst snd length]; repeat split.
Qed.

(** *** [Signal] only ever adds a token *)

Lemma prepSignal_as_send (q : queue) :
  one_slot (signal q) ->
  prepSignal q =
    if (lenWithoutLock q >? 0)%Z
    then set_signal (snd (Chan.try_send (signal q))) q
    else q.
Proof.
  intros H. rewrite prepSignal_frame, (prepSignal_signal _ H).
  rewrite (try_send_one_slot H). unfold pending.
  destruct (lenWithoutLock q >? 0)%Z.
  - rewrite orb_true_r. reflexivity.
  - rewrite orb_false_r.
    destruct (one_slot_cases H) as [E | E]; rewrite E; cbn;
      rewrite <- E; apply set_signal_same.
Qed.

(** X2: in any state a driver can reach, the repair done by [Signal] (and
    by a successful [Next]) amounts to one non-blocking send when the queue
    is not empty and to nothing when it is empty: it never takes a token
    away.  Calling [Signal] twice in a row gives the same handle and state
    as calling it once. *)
Theorem Signal_is_conditional_send_and_idempotent (ops : list (op any)) :
  let q := after ops in
  snd (Signal q) =
    (if (fst (Len q) >? 0)%Z
     then set_signal (snd (Chan.try_send (signal q))) q
     else q) /\
  Signal (snd (Signal q)) = Signal q.
Proof.
  intros q. pose proof (after_one_slot ops) as H. fold q in H.
  unfold Signal, Len. cbn [fst snd]. split.
  - apply prepSignal_as_send, H.
  - pose proof (prepSignal_one_slot _ H) as H'.
    assert (E : prepSignal (prepSignal q) = prepSignal q).
    { rewrite (prepSignal_as_send _ H') at 1.
      rewrite lenWithoutLock_prepSignal.
      destruct (lenWithoutLock q >? 0)%Z eqn:L; [| reflexivity].
      rewrite (try_send_one_slot H').
      rewrite (prepSignal_as_send _ H), L, (try_send_one_slot H).
      reflexivity. }
    rewrite E. reflexivity.
Qed.

(** *** Coalescing *)

Lemma append_all_one_slot l (q : queue) :
  one_slot (signal q) -> one_slot (signal (append_all l q)).
Proof.
  revert q. induction l as [|[x p] l IH]; intros q H; [exact H|].
  change (append_all ((x, p) :: l) q) with (append_all l (append x p q)).
  apply IH. rewrite (append_one_slot _ _ _ H). split; simpl; lia.
Qed.

Lemma append_all_snoc l x p (q : queue) :
  append_all (l ++ [(x, p)]) q = append x p (append_all l q).
Proof. unfold append_all. rewrite fold_left_app. reflexivity. Qed.

(** X3: in any state a driver can reach, one or more appends in a row, at
    whatever priorities, leave exactly one token in the channel, and a
    single receive by a consumer then leaves it empty: the appends coalesce
    into one wake-up. *)
Theorem appends_coalesce_into_one_token
    (ops : list (op any)) (l : list (any * QueuePriority))
    (x : any) (p : QueuePriority) :
  let q := append_all (l ++ [(x, p)]) (after ops) in
  signal q = Chan.mk 1 1 /\
  pending q = true /\
  Chan.try_recv (signal q) = (true, Chan.mk 1 0).
Proof.
  intros q. subst q. rewrite append_all_snoc.
  pose proof (append_all_one_slot l _ (after_one_slot ops)) as H.
  unfold pending. rewrite (append_one_slot _ _ _ H). repeat split.
Qed.

(** *** No missed wake-up *)

Lemma exec_awake o (q : queue) :
  one_slot (signal q) -> is_method o = true -> awake q ->
  awake (snd (exec o q)).
Proof.
  intros H Hm Hq. unfold awake in *. destruct o; open_exec;
    try discriminate Hm.
  - cbn [snd]. unfold Append, pending.
    rewrite (append_one_slot _ _ _ H). apply implb_true_r.
  - cbn [snd]. unfold AppendPriority, pending.
    rewrite (append_one_slot _ _ _ H). apply implb_true_r.
  - unfold Signal. cbn [snd].
    rewrite (pending_prepSignal _ H), lenWithoutLock_prepSignal.
    destruct (lenWithoutLock q >? 0)%Z; cbn;
      [apply orb_true_r | reflexivity].
  - pose proof (pending_Next _ H) as HP.
    pose proof (@Next_not_found_empty q) as HE.
    destruct (Next q) as [[x found] q1]. cbn [fst snd] in *. rewrite HP.
    destruct found; cbn [andb].
    + destruct (lenWithoutLock q1 >? 0)%Z; cbn;
        [apply orb_true_r | reflexivity].
    + rewrite (HE eq_refl). reflexivity.
  - pose proof (Peek_state q) as E.
    destruct (Peek q) as [r q1]. cbn [snd] in *. subst q1. exact Hq.
  - rewrite Process_items. cbn [snd].
    rewrite lenWithoutLock_items.
    pose proof (Nexts_items 1 q) as [_ ->]. reflexivity.
  - exact Hq.
  - exact Hq.
Qed.

Lemma run_awake ops (q : queue) :
  one_slot (signal q) -> forallb (@is_method any) ops = true -> awake q ->
  awake (snd (run ops q)).
Proof.
  revert q. induction ops as [|o ops IH]; intros q H Hm Hq; [exact Hq|].
  simpl in Hm. apply andb_true_iff in Hm as [Ho Hm].
  pose proof (exec_one_slot o _ H) as H1.
  pose proof (exec_awake o H Ho Hq) as H2.
  simpl run. destruct (exec o q) as [r q1]. cbn [snd] in *.
  specialize (IH q1 H1 Hm H2). destruct (run ops q1). exact IH.
Qed.

(** X4: as long as no consumer takes the token out of the channel, after
    any sequence of calls on a new queue a non-empty queue has a token
    pending: the queue's own operations never leave items without a
    wake-up. *)
Theorem nonempty_queue_has_token (ops : list (op any)) :
  forallb (@is_method any) ops = true ->
  implb (fst (Len (after ops)) >? 0)%Z (pending (after ops)) = true.
Proof.
  intros Hm. apply (@run_awake ops NewQueue); [| exact Hm | reflexivity].
  split; simpl; lia.
Qed.

(** *** The state [Process] ends in *)

Lemma cap_try_send c : Chan.cap (snd (Chan.try_send c)) = Chan.cap c.
Proof. unfold Chan.try_send. destruct (_ <? _); reflexivity. Qed.

Lemma cap_try_recv c : Chan.cap (snd (Chan.try_recv c)) = Chan.cap c.
Proof. unfold Chan.try_recv. destruct (Chan.buf c); reflexivity. Qed.

Lemma cap_prepSignal (q : queue) :
  Chan.cap (signal (prepSignal q)) = Chan.cap (signal q).
Proof.
  unfold prepSignal. pose proof (cap_try_recv (signal q)) as E.
  destruct (Chan.try_recv (signal q)) as [send c]. cbn [snd] in E.
  destruct (if negb send && _ then true else send); cbn [signal set_signal].
  - rewrite cap_try_send. exact E.
  - exact E.
Qed.

Lemma items_nil_state (q : queue) :
  items q = [] -> q = mkQueue (signal q) [] [] [] [].
Proof.
  unfold items. intros H.
  apply app_eq_nil in H as [Hc H]. apply app_eq_nil in H as [Hh H].
  apply app_eq_nil in H as [Hn Hl].
  destruct q; simpl in *; subst; reflexivity.
Qed.

Lemma Next_idle k : Next (idle k) = ((Nil, false), idle k).
Proof.
  rewrite Next_nil by reflexivity. unfold drain, idle. cbn [signal set_signal].
  rewrite chan_drain_eq. reflexivity.
Qed.

Lemma Nexts_idle n k : snd (Nexts n (idle k)) = idle k.
Proof.
  induction n as [|n IH]; [reflexivity|].
  change (Nexts (S n) (idle k)) with
    (let '(r, q) := Next (idle k) in
     let '(rs, q) := Nexts n q in (r :: rs, q)).
  rewrite Next_idle. destruct (Nexts n (idle k)). exact IH.
Qed.

Lemma Nexts_past_end n (q : queue) :
  snd (Nexts (length (items q) + S n) q) = idle (Chan.cap (signal q)).
Proof.
  remember (items q) as r eqn:Hr. revert q Hr.
  induction r as [|x r IH]; intros q Hr; symmetry in Hr.
  - simpl. rewrite (Next_nil _ Hr).
    assert (E : drain q = idle (Chan.cap (signal q))).
    { rewrite (items_nil_state _ Hr) at 1. unfold drain, idle.
      cbn [signal set_signal low norm high crit].
      rewrite chan_drain_eq. reflexivity. }
    rewrite E. pose proof (Nexts_idle n (Chan.cap (signal q))) as Hn.
    destruct (Nexts n _). exact Hn.
  - destruct (Next_cons _ Hr) as (q0 & HN & Hi & Hs).
    simpl. rewrite HN.
    specialize (IH (prepSignal q0)). rewrite items_prepSignal in IH.
    specialize (IH (eq_sym Hi)). rewrite cap_prepSignal, Hs in IH.
    destruct (Nexts (length r + S n) (prepSignal q0)). exact IH.
Qed.

(** X5: whatever is queued and whatever is buffered in the channel,
    [Process] ends with the four slices empty and the channel empty, its
    capacity unchanged; from a state a driver can reach this is the state
    of a new queue.  The final not-found [Next] drains the token. *)
Theorem Process_ends_in_new_queue_state
    (S : Type) (cb : any -> S -> S) (s : S) (q : queue) (ops : list (op any)) :
  snd (Process cb q s) = mkQueue (Chan.mk (Chan.cap (signal q)) 0) [] [] [] [] /\
  pending (snd (Process cb q s)) = false /\
  snd (Process cb (after ops) s) = NewQueue.
Proof.
  rewrite !Process_items. cbn [snd]. rewrite !Nexts_past_end.
  repeat split.
  destruct (after_one_slot ops) as [-> _]. reflexivity.
Qed.

(** X6: on an empty queue with no token buffered, every call other than an
    append leaves the state exactly as it is, and answers not-found, zero,
    empty, no token, or an empty callback trace. *)
Theorem idle_queue_is_quiescent (k : nat) (o : op any) :
  is_append o = false ->
  snd (exec o (idle k)) = idle k /\
  fst (exec o (idle k)) =
    match o with
    | OpSignal => RHandle (Chan.mk k 0)
    | OpNext | OpPeek => RItem (Nil, false)
    | OpProcess => RCalls []
    | OpEmpty => RBool true
    | OpLen => RInt 0
    | OpReceive => RToken false
    | _ => RDone
    end.
Proof.
  intros Ha. destruct o; try discriminate Ha; open_exec.
  - split; reflexivity.
  - rewrite Next_idle. split; reflexivity.
  - split; reflexivity.
  - rewrite Process_items. cbn [fst snd].
    pose proof (Nexts_past_end 0 (idle k)) as E. split; [exact E | reflexivity].
  - split; reflexivity.
  - split; reflexivity.
  - split; reflexivity.
Qed.

(** *** Where an appended item lands *)

Lemma defined_cases p :
  defined_priority p = true ->
  p = PriorityLow \/ p = PriorityNormal \/ p = PriorityHigh \/
  p = PriorityCritical.
Proof.
  unfold defined_priority. intros H.
  repeat (apply orb_true_iff in H as [H | H]);
    apply Z.eqb_eq in H; auto.
Qed.

(** The new item goes right behind the items of its own and of higher
    priority, in front of the lower ones. *)
Lemma items_append_split x p (q : queue) :
  exists rest,
    items q = at_or_above p q ++ rest /\
    items (append x p q) =
      at_or_above p q ++ (if defined_priority p then [x] else []) ++ rest.
Proof.
  destruct (append_frame x p q) as (Hc & Hh & Hn & Hl & _).
  unfold items, at_or_above, defined_priority. rewrite Hc, Hh, Hn, Hl.
  unfold PriorityLow, PriorityNormal, PriorityHigh, PriorityCritical.
  destruct (Z.eqb_spec p 3); [subst; cbn [Z.eqb Pos.eqb orb] |].
  { exists (high q ++ norm q ++ low q).
    rewrite ?app_nil_r, <- ?app_assoc. split; reflexivity. }
  destruct (Z.eqb_spec p 2); [subst; cbn [Z.eqb Pos.eqb orb] |].
  { exists (norm q ++ low q).
    rewrite ?app_nil_r, <- ?app_assoc. split; reflexivity. }
  destruct (Z.eqb_spec p 1); [subst; cbn [Z.eqb Pos.eqb orb] |].
  { exists (low q).
    rewrite ?app_nil_r, <- ?app_assoc. split; reflexivity. }
  exists []. destruct (Z.eqb_spec p 0); cbn [orb];
    rewrite ?app_nil_r, <- ?app_assoc; split; reflexivity.
Qed.

(** X7: an item appended at one of the four priorities while nothing of
    the same or a higher priority is queued is the one [Peek] shows and
    [Next] hands out, and that [Next] puts the four slices back as they
    were before the append. *)
Theorem append_above_all_is_next x p (q : queue) :
  defined_priority p = true ->
  at_or_above p q = [] ->
  fst (Peek (AppendPriority x p q)) = (x, true) /\
  fst (Next (AppendPriority x p q)) = (x, true) /\
  slices (snd (Next (AppendPriority x p q))) = slices q.
Proof.
  intros Hd Ha. rewrite Peek_result. unfold AppendPriority.
  destruct q as [sg l n h c].
  destruct (defined_cases _ Hd) as [-> | [-> | [-> | ->]]];
    unfold at_or_above in Ha; cbn in Ha;
    repeat match goal with
           | H : _ ++ _ = [] |- _ => apply app_eq_nil in H as [? ?]
           end; subst;
    unfold append; open_Next;
    cbn -[prepSignal Chan.try_send]; rewrite slices_prepSignal;
    repeat split.
Qed.

(** X8: when something of the same or a higher priority is already queued,
    an append does not change what [Peek] shows and what [Next] hands out;
    this covers every append at a priority outside the four constants on a
    non-empty queue. *)
Theorem append_behind_keeps_front x p (q : queue) :
  at_or_above p q <> [] ->
  fst (Peek (AppendPriority x p q)) = fst (Peek q) /\
  fst (Next (AppendPriority x p q)) = fst (Next q).
Proof.
  intros Ha.
  assert (E : fst (Peek (AppendPriority x p q)) = fst (Peek q)).
  { unfold AppendPriority. rewrite !Peek_items.
    destruct (items_append_split x p q) as (rest & -> & ->).
    destruct (at_or_above p q); [contradiction | reflexivity]. }
  split; [exact E | rewrite <- !Peek_result; exact E].
Qed.

(** *** Nothing lost, nothing duplicated *)

Lemma items_append_perm x p (q : queue) :
  Permutation (items q ++ (if defined_priority p then [x] else []))
              (items (append x p q)).
Proof.
  destruct (items_append_split x p q) as (rest & -> & ->).
  rewrite <- app_assoc. apply Permutation_app_head, Permutation_app_comm.
Qed.

Lemma exec_conserves o (q : queue) :
  Permutation (items q ++ appended_of o)
              (handed_of o (fst (exec o q)) ++ items (snd (exec o q))).
Proof.
  destruct o; open_exec.
  - cbn [fst snd appended_of handed_of app]. unfold Append.
    apply (items_append_perm data PriorityNormal q).
  - cbn [fst snd appended_of handed_of app]. unfold AppendPriority.
    apply items_append_perm.
  - unfold Signal. cbn [fst snd appended_of handed_of app].
    rewrite items_prepSignal, app_nil_r. reflexivity.
  - destruct (Next_cases q) as [[Hi ->] | (x & r & q0 & Hi & -> & Hr & _)];
      cbn [fst snd appended_of handed_of app].
    + rewrite app_nil_r. reflexivity.
    + rewrite items_prepSignal, Hi, Hr, app_nil_r. reflexivity.
  - pose proof (Peek_state q) as E. destruct (Peek q) as [r q1].
    cbn [fst snd appended_of handed_of app] in *. subst q1.
    rewrite app_nil_r. destruct r as [? [|]]; reflexivity.
  - rewrite Process_items. cbn [fst snd appended_of handed_of].
    rewrite fold_record_call. pose proof (Nexts_items 1 q) as [_ ->].
    reflexivity.
  - cbn. rewrite app_nil_r. reflexivity.
  - cbn. rewrite app_nil_r. reflexivity.
  - destruct (Chan.try_recv (signal q)).
    cbn [fst snd appended_of handed_of app]. rewrite app_nil_r. reflexivity.
Qed.

Lemma handed_cons o ops r rs :
  handed (o :: ops) (r :: rs) = handed_of o r ++ @handed any ops rs.
Proof. reflexivity. Qed.

Lemma run_conserves ops (q : queue) :
  Permutation (items q ++ appended ops)
              (handed ops (fst (run ops q)) ++ items (snd (run ops q))).
Proof.
  revert q. induction ops as [|o ops IH]; intros q.
  - cbn. rewrite app_nil_r. reflexivity.
  - simpl run. pose proof (exec_conserves o q) as Ho.
    destruct (exec o q) as [r q1]. specialize (IH q1).
    destruct (run ops q1) as [rs q2]. cbn [fst snd] in *.
    rewrite handed_cons. unfold appended in *. cbn [flat_map].
    rewrite app_assoc, Ho, <- !app_assoc.
    apply Permutation_app_head. exact IH.
Qed.

(** X9: along any run of a single-threaded driver on a new queue, the
    items appended at one of the four priorities are, counted with
    repetitions, exactly the items handed out by [Next] and [Process]
    together with those still queued: nothing is lost and nothing is handed
    out twice. *)
Theorem items_are_conserved (ops : list (op any)) :
  let rs := fst (run ops NewQueue) in
  let q := snd (run ops NewQueue) in
  Permutation (appended ops) (handed ops rs ++ items q).
Proof. intros rs q. apply (run_conserves ops NewQueue). Qed.

(** *** [Process] with a callback that can reach the queue *)

Lemma ProcessRe_step fuel (St : Type)
    (cb : any -> queue -> St -> St * queue) (q : queue) (s : St) :
  ProcessRe Nil (S fuel) cb q s =
    (let '((element, ok), q1) := Next q in
     if ok then let '(s1, q2) := cb element q1 s in
                ProcessRe Nil fuel cb q2 s1
     else Some (s, q1)).
Proof. reflexivity. Qed.

(** A callback that leaves the four slices alone is called on the queued
    items, front to back, and the loop ends on an empty queue. *)
Lemma ProcessRe_keeping_slices (St : Type)
    (cb : any -> queue -> St -> St * queue) :
  (forall x q s, slices (snd (cb x q s)) = slices q) ->
  forall r (q : queue) tr s fuel,
    items q = r -> length r < fuel ->
    exists s' q',
      ProcessRe Nil fuel (recording cb) q (tr, s) = Some ((tr ++ r, s'), q') /\
      items q' = [].
Proof.
  intros Hcb. induction r as [|x r IH]; intros q tr s fuel Hr Hf;
    (destruct fuel as [|fuel]; [inversion Hf |]); rewrite ProcessRe_step.
  - rewrite (Next_nil _ Hr). exists s, (drain q).
    rewrite app_nil_r. split; [reflexivity | exact Hr].
  - destruct (Next_cons _ Hr) as (q0 & -> & Hi & _).
    unfold recording at 1. cbn [fst snd].
    pose proof (Hcb x (prepSignal q0) s) as Hk.
    destruct (cb x (prepSignal q0) s) as [s1 q1]. cbn [snd] in Hk.
    apply items_slices in Hk. rewrite items_prepSignal, Hi in Hk.
    simpl in Hf. destruct (IH q1 (tr ++ [x]) s1 fuel Hk) as (s' & q' & E & Hq');
      [lia|].
    exists s', q'. rewrite E, <- app_assoc. split; [reflexivity | exact Hq'].
Qed.

(** A callback that ignores the queue: the loop is [Process]. *)
Lemma ProcessRe_pure (St : Type) (cb : any -> St -> St) :
  forall r (q : queue) s fuel,
    items q = r -> length r < fuel ->
    ProcessRe Nil fuel (fun x q s => (cb x s, q)) q s = Some (Process cb q s).
Proof.
  induction r as [|x r IH]; intros q s fuel Hr Hf;
    (destruct fuel as [|fuel]; [inversion Hf |]);
    rewrite ProcessRe_step, Process_items, Hr.
  - rewrite (Next_nil _ Hr). cbn. rewrite (Next_nil _ Hr). reflexivity.
  - destruct (Next_cons _ Hr) as (q0 & HN & Hi & _). rewrite HN.
    simpl in Hf. rewrite (IH (prepSignal q0) (cb x s) fuel);
      [| rewrite items_prepSignal; exact Hi | lia].
    rewrite Process_items, items_prepSignal, Hi.
    cbn [length Nat.add fold_left].
    change (Nexts (S (length r + 1)) q) with
      (let '(r0, q1) := Next q in
       let '(rs, q2) := Nexts (length r + 1) q1 in (r0 :: rs, q2)).
    rewrite HN. destruct (Nexts (length r + 1) (prepSignal q0)). reflexivity.
Qed.

(** C10, as the code has it: when the callback neither appends to nor
    removes from the queue it is fed from (it may read it, and may touch
    the signal), and nothing else mutates the queue, [Process] returns on
    every queue state, whatever fuel beyond [Len] calls of [Next] it is
    given: the callback has then run exactly [Len] times, on the items that
    as many [Next] calls hand out and in that order, and the queue is
    empty. *)
Theorem Process_with_callback_keeping_contents (St : Type)
    (cb : any -> queue -> St -> St * queue) (q : queue) (s : St) (fuel : nat) :
  (forall x q0 s0, slices (snd (cb x q0 s0)) = slices q0) ->
  length (items q) < fuel ->
  exists trace s' q',
    ProcessRe Nil fuel (recording cb) q ([], s) = Some ((trace, s'), q') /\
    Z.of_nat (length trace) = fst (Len q) /\
    fst (Nexts (length trace) q) = map (fun x => (x, true)) trace /\
    fst (Len q') = 0%Z.
Proof.
  intros Hcb Hf.
  destruct (@ProcessRe_keeping_slices St cb Hcb (items q) q [] s fuel
              eq_refl Hf) as (s' & q' & E & Hq').
  exists (items q), s', q'. cbn [app] in E. split; [exact E|].
  unfold Len. cbn [fst]. repeat split.
  - symmetry. apply lenWithoutLock_items.
  - pose proof (Nexts_items 0 q) as [H _].
    rewrite Nat.add_0_r in H. rewrite H. cbn. apply app_nil_r.
  - rewrite lenWithoutLock_items, Hq'. reflexivity.
Qed.

(** *** Popping part of the queue *)

(** X11: any number [n] of successive [Next] calls hands out the first [n]
    items of the hand-out order (Critical first, each level oldest first),
    reports not-found for every call beyond the number of queued items, and
    leaves the remaining items queued in the same order. *)
Theorem Nexts_hand_out_a_prefix n (q : queue) :
  fst (Nexts n q) =
    map (fun x => (x, true)) (firstn n (items q)) ++
    repeat (Nil, false) (n - length (items q)) /\
  items (snd (Nexts n q)) = skipn n (items q).
Proof.
  revert q. induction n as [|n IH]; intros q; [split; reflexivity|].
  change (Nexts (S n) q) with
    (let '(r, q1) := Next q in
     let '(rs, q2) := Nexts n q1 in (r :: rs, q2)).
  destruct (Next_cases q) as [[Hi ->] | (x & r & q0 & Hi & -> & Hr & _)].
  - specialize (IH (drain q)). rewrite items_drain, Hi in IH.
    destruct (Nexts n (drain q)) as [rs q2]. cbn [fst snd] in *.
    destruct IH as [-> ->]. rewrite Hi, firstn_nil, skipn_nil.
    cbn. rewrite Nat.sub_0_r. auto.
  - specialize (IH (prepSignal q0)). rewrite items_prepSignal, Hr in IH.
    destruct (Nexts n (prepSignal q0)) as [rs q2]. cbn [fst snd] in *.
    destruct IH as [-> ->]. rewrite Hi. cbn. auto.
Qed.

(** *** First in, first out at each level, under any interleaving *)

Section Tagged.

Variable lvl : any -> QueuePriority.

Lemma of_level_app p l1 l2 :
  of_level lvl p (l1 ++ l2) = of_level lvl p l1 ++ of_level lvl p l2.
Proof. apply filter_app. Qed.

Lemma of_level_same p p' l :
  Forall (fun x => lvl x = p') l ->
  of_level lvl p l = if (p' =? p)%Z then l else [].
Proof.
  unfold of_level. induction 1 as [|x l Hx _ IH]; simpl.
  - destruct (p' =? p)%Z; reflexivity.
  - rewrite IH, Hx. destruct (p' =? p)%Z; reflexivity.
Qed.

Lemma items_by_level (q : queue) :
  items q = slice_at PriorityCritical q ++ slice_at PriorityHigh q ++
            slice_at PriorityNormal q ++ slice_at PriorityLow q.
Proof. reflexivity. Qed.

Lemma of_level_items p (q : queue) :
  well_tagged lvl q -> defined_priority p = true ->
  of_level lvl p (items q) = slice_at p q.
Proof.
  intros H Hd. rewrite items_by_level, !of_level_app.
  rewrite (of_level_same p (H PriorityCritical)),
          (of_level_same p (H PriorityHigh)),
          (of_level_same p (H PriorityNormal)),
          (of_level_same p (H PriorityLow)).
  destruct (defined_cases _ Hd) as [-> | [-> | [-> | ->]]];
    cbn; rewrite ?app_nil_r; reflexivity.
Qed.

Lemma slice_at_set_signal p c (q : queue) :
  slice_at p (set_signal c q) = slice_at p q.
Proof. reflexivity. Qed.

Lemma slice_at_prepSignal p (q : queue) :
  slice_at p (prepSignal q) = slice_at p q.
Proof. rewrite prepSignal_frame. reflexivity. Qed.

Lemma slice_at_append x p0 p (q : queue) :
  slice_at p (append x p0 q) =
    slice_at p q ++ (if (p0 =? p)%Z && defined_priority p then [x] else []).
Proof.
  destruct (append_frame x p0 q) as (Hc & Hh & Hn & Hl & _).
  unfold slice_at, defined_priority. rewrite Hc, Hh, Hn, Hl.
  unfold PriorityLow, PriorityNormal, PriorityHigh, PriorityCritical.
  destruct (Z.eqb_spec p 0); [subst; cbn; rewrite andb_true_r; reflexivity |].
  destruct (Z.eqb_spec p 1); [subst; cbn; rewrite andb_true_r; reflexivity |].
  destruct (Z.eqb_spec p 2); [subst; cbn; rewrite andb_true_r; reflexivity |].
  destruct (Z.eqb_spec p 3); [subst; cbn; rewrite andb_true_r; reflexivity |].
  cbn. rewrite andb_false_r. reflexivity.
Qed.

Lemma slice_at_Next p (q : queue) :
  slice_at p (snd (Next q)) = slice_at p q \/
  slice_at p (snd (Next q)) = tl (slice_at p q).
Proof.
  open_Next.
  repeat match goal with |- context [if (len _ >? 0)%Z then _ else _] =>
    destruct (len _ >? 0)%Z end;
    cbn [snd]; rewrite ?slice_at_prepSignal; unfold slice_at;
    cbn [low norm high crit set_low set_norm set_high set_crit drain
         set_signal];
    repeat match goal with |- context [if ?b then _ else _] =>
      destruct b end; auto.
Qed.

Lemma slice_at_empty p (q : queue) : items q = [] -> slice_at p q = [].
Proof.
  intros H. rewrite (items_nil_state _ H). unfold slice_at. cbn.
  repeat match goal with |- context [if ?b then _ else _] =>
    destruct b end; reflexivity.
Qed.

Lemma well_tagged_Next (q : queue) :
  well_tagged lvl q -> well_tagged lvl (snd (Next q)).
Proof.
  intros H p. specialize (H p).
  destruct (slice_at_Next p q) as [-> | ->]; [exact H|].
  destruct (slice_at p q); [exact H | exact (Forall_inv_tail H)].
Qed.

Lemma well_tagged_append x p0 (q : queue) :
  lvl x = p0 -> well_tagged lvl q -> well_tagged lvl (append x p0 q).
Proof.
  intros Hx H p. rewrite slice_at_append. apply Forall_app. split; [apply H|].
  destruct (Z.eqb_spec p0 p); cbn [andb]; [| constructor].
  destruct (defined_priority p); constructor; [congruence | constructor].
Qed.

Lemma well_tagged_empty (q : queue) : items q = [] -> well_tagged lvl q.
Proof. intros H p. rewrite (slice_at_empty p _ H). constructor. Qed.

Lemma exec_level o p (q : queue) :
  tagged_op lvl o = true -> defined_priority p = true -> well_tagged lvl q ->
  well_tagged lvl (snd (exec o q)) /\
  of_level lvl p (handed_of o (fst (exec o q))) ++ slice_at p (snd (exec o q))
    = slice_at p q ++ of_level lvl p (appended_of o).
Proof.
  intros Ht Hd Hq. destruct o; open_exec.
  - cbn [tagged_op] in Ht. apply Z.eqb_eq in Ht.
    cbn [fst snd handed_of appended_of of_level filter app]. unfold Append.
    split; [apply well_tagged_append; assumption|].
    rewrite slice_at_append, Ht, Hd, andb_true_r. reflexivity.
  - cbn [tagged_op] in Ht. apply Z.eqb_eq in Ht.
    cbn [fst snd handed_of appended_of of_level filter app].
    unfold AppendPriority.
    split; [apply well_tagged_append; assumption|].
    rewrite slice_at_append, Hd, andb_true_r. f_equal. subst priority.
    destruct (Z.eqb_spec (lvl data) p) as [E | E].
    + rewrite E, Hd. cbn. rewrite E, Z.eqb_refl. reflexivity.
    + destruct (defined_priority (lvl data)); cbn; [| reflexivity].
      destruct (Z.eqb_spec (lvl data) p); [contradiction | reflexivity].
  - unfold Signal. cbn [fst snd handed_of appended_of of_level filter app].
    split; [intros p'; rewrite slice_at_prepSignal; apply Hq|].
    rewrite slice_at_prepSignal, app_nil_r. reflexivity.
  - pose proof (well_tagged_Next Hq) as Hq'.
    destruct (Next_cases q) as [[Hi E] | (x & r & q0 & Hi & E & Hr & _)];
      rewrite E in *; cbn [fst snd handed_of appended_of] in *;
      (split; [exact Hq'|]).
    + cbn. rewrite app_nil_r. reflexivity.
    + rewrite <- (@of_level_items p _ Hq' Hd), <- of_level_app, items_prepSignal.
      cbn [app]. rewrite Hr, <- Hi, (@of_level_items p _ Hq Hd).
      cbn. rewrite app_nil_r. reflexivity.
  - pose proof (Peek_state q) as E. destruct (Peek q) as [r q1].
    cbn [fst snd handed_of appended_of] in *. subst q1.
    split; [exact Hq|]. cbn. rewrite app_nil_r. reflexivity.
  - rewrite Process_items. cbn [fst snd handed_of appended_of].
    rewrite fold_record_call. cbn [app].
    pose proof (Nexts_items 1 q) as [_ Hi].
    split; [apply well_tagged_empty, Hi|].
    rewrite (slice_at_empty p _ Hi), (@of_level_items p _ Hq Hd). cbn.
    reflexivity.
  - split; [exact Hq|]. cbn. rewrite app_nil_r. reflexivity.
  - split; [exact Hq|]. cbn. rewrite app_nil_r. reflexivity.
  - destruct (Chan.try_recv (signal q)).
    cbn [fst snd handed_of appended_of].
    split; [exact Hq|]. cbn. rewrite app_nil_r. reflexivity.
Qed.

Lemma run_level ops p (q : queue) :
  forallb (tagged_op lvl) ops = true -> defined_priority p = true ->
  well_tagged lvl q ->
  of_level lvl p (handed ops (fst (run ops q))) ++ slice_at p (snd (run ops q))
    = slice_at p q ++ of_level lvl p (appended ops).
Proof.
  intros Ht Hd. revert q Ht.
  induction ops as [|o ops IH]; intros q Ht Hq.
  - cbn. rewrite app_nil_r. reflexivity.
  - simpl in Ht. apply andb_true_iff in Ht as [Ho Ht].
    destruct (@exec_level o p q Ho Hd Hq) as [Hq1 Heq].
    simpl run. destruct (exec o q) as [r q1]. cbn [fst snd] in *.
    specialize (IH q1 Ht Hq1).
    destruct (run ops q1) as [rs q2]. cbn [fst snd] in *.
    rewrite handed_cons. unfold appended in *. cbn [flat_map].
    rewrite !of_level_app, <- app_assoc, IH, !app_assoc, Heq. reflexivity.
Qed.

(** X10: take a driver that appends every item at the priority [lvl]
    assigns to it, interleaving appends with [Next], [Peek], [Process] and
    the other calls at will.  Then, for each of the four priorities, the
    items of that priority handed out so far, followed by the ones still in
    that level's slice, are exactly the items appended at that priority, in
    append order: each level is first in, first out under any
    interleaving. *)
Theorem each_level_is_fifo (ops : list (op any)) (p : QueuePriority) :
  forallb (tagged_op lvl) ops = true ->
  defined_priority p = true ->
  let rs := fst (run ops NewQueue) in
  let q := snd (run ops NewQueue) in
  of_level lvl p (handed ops rs) ++ slice_at p q =
    of_level lvl p (appended ops).
Proof.
  intros Ht Hd rs q. subst rs q.
  rewrite (@run_level ops p NewQueue Ht Hd).
  - unfold slice_at. cbn.
    repeat match goal with |- context [if ?b then _ else _] =>
      destruct b end; reflexivity.
  - apply well_tagged_empty. reflexivity.
Qed.

End Tagged.

End Facts.

(** ** The properties on concrete queues *)

Section Concrete.

Import String.StringSyntax.
Open Scope string_scope.

Local Abbreviation a := (Some "a" : Demo.item).
Local Abbreviation b := (Some "b" : Demo.item).
Local Abbreviation c := (Some "c" : Demo.item).

(** C5: with (Low, a), (Critical, b), (Normal, c) appended in that order to
    a new queue, [Process] invokes the callback three times, on b, then c,
    then a, and leaves the queue empty. *)
Theorem Process_example_order :
  fst (Process None (@record_call Demo.item) Demo.abc []) = [b; c; a] /\
  length (fst (Process None (@record_call Demo.item) Demo.abc [])) = 3 /\
  fst (exec None OpProcess Demo.abc) = RCalls [b; c; a] /\
  fst (Len (snd (Process None (@record_call Demo.item) Demo.abc []))) = 0%Z.
Proof. repeat split. Qed.

(** [Next] on an empty queue that still has a token buffered. *)
Lemma Next_on_empty_drains_stale :
  fst (Next None Demo.stale) = (None, false) /\
  crit (snd (Next None Demo.stale)) = [] /\
  high (snd (Next None Demo.stale)) = [] /\
  norm (snd (Next None Demo.stale)) = [] /\
  low (snd (Next None Demo.stale)) = [] /\
  Chan.buf (signal (snd (Next None Demo.stale))) = 0 /\
  pending (snd (Next None Demo.stale)) = false.
Proof.
  apply (Next_on_empty_drains None Demo.stale); reflexivity.
Defined.

(** Appending at priority 4 after one ordinary append. *)
Lemma undefined_priority_append_discards_at_4 :
  defined_priority 4%Z = false /\
  let q := after None [OpAppend a] in
  let q' := AppendPriority b 4%Z q in
  low q' = low q /\ norm q' = norm q /\ high q' = high q /\ crit q' = crit q /\
  fst (Len q') = fst (Len q) /\
  fst (Next None q') = fst (Next None q) /\
  fst (Peek None q') = fst (Peek None q) /\
  (forall later,
     map (@visible Demo.item) (fst (run None later q')) =
     map (@visible Demo.item) (fst (run None later q))) /\
  signal q' = snd (Chan.try_send (signal q)) /\
  fst (Chan.try_send (signal q)) = negb (pending q) /\
  pending q' = true.
Proof.
  split; [reflexivity |].
  apply (undefined_priority_append_discards None [OpAppend a] b 4%Z).
  reflexivity.
Defined.

(** C2 fails as stated.  After one append, [Next] removes the only item and
    the token deposited by the append is still pending; a later [Signal] on
    that empty queue keeps it pending as well. *)
Lemma token_survives_last_Next_and_Signal :
  let q := after None [OpAppend a] in
  let q1 := snd (Next None q) in
  let q2 := snd (Signal q1) in
  fst (Next None q) = (a, true) /\
  ~ (pending q1 = true <-> (lenWithoutLock q1 > 0)%Z) /\
  ~ (pending q2 = true <-> (lenWithoutLock q2 > 0)%Z).
Proof.
  cbv zeta. split; [reflexivity |].
  split; intros [H _]; specialize (H eq_refl); discriminate H.
Qed.

(** C7 fails as stated.  One append call at priority 4 and no [Next]: [Len]
    is still 0, not 1. *)
Lemma Len_misses_undefined_priority_append :
  let ops := [OpAppendPriority a 4%Z] in
  let rs := fst (run None ops NewQueue) in
  let q := snd (run None ops NewQueue) in
  count_appends ops = 1 /\ count_pops ops rs = 0 /\
  fst (Len q) <>
    (Z.of_nat (count_appends ops) - Z.of_nat (count_pops ops rs))%Z /\
  fst (Len (AppendPriority a 4%Z NewQueue)) <>
    (fst (Len (@NewQueue Demo.item)) + 1)%Z.
Proof.
  cbv zeta. repeat split; intros H; discriminate H.
Qed.

(** *** Instances of the further properties *)

(** A driver that appends, peeks, asks for the handle and pops, without any
    consumer receive. *)
Lemma nonempty_queue_has_token_example :
  forallb (@is_method Demo.item)
    [OpAppend a; OpAppendPriority b 3%Z; OpPeek; OpSignal; OpNext] = true /\
  implb
    (fst (Len (after None
       [OpAppend a; OpAppendPriority b 3%Z; OpPeek; OpSignal; OpNext])) >? 0)%Z
    (pending (after None
       [OpAppend a; OpAppendPriority b 3%Z; OpPeek; OpSignal; OpNext]))
    = true.
Proof.
  split; [reflexivity |].
  apply (@nonempty_queue_has_token Demo.item None
           [OpAppend a; OpAppendPriority b 3%Z; OpPeek; OpSignal; OpNext]).
  reflexivity.
Defined.

(** [Next] on the idle queue of a one-slot channel. *)
Lemma idle_queue_is_quiescent_at_Next :
  is_append (@OpNext Demo.item) = false /\
  snd (exec None OpNext (@idle Demo.item 1)) = idle 1 /\
  fst (exec None OpNext (@idle Demo.item 1)) = RItem (None, false).
Proof.
  split; [reflexivity |].
  apply (@idle_queue_is_quiescent Demo.item None 1 OpNext). reflexivity.
Defined.

(** A Critical item appended behind one Normal item. *)
Lemma append_above_all_is_next_example :
  defined_priority PriorityCritical = true /\
  at_or_above PriorityCritical (after None [OpAppend a]) = [] /\
  fst (Peek None (AppendPriority b PriorityCritical (after None [OpAppend a])))
    = (b, true) /\
  fst (Next None (AppendPriority b PriorityCritical (after None [OpAppend a])))
    = (b, true) /\
  slices (snd (Next None
            (AppendPriority b PriorityCritical (after None [OpAppend a]))))
    = slices (after None [OpAppend a]).
Proof.
  split; [reflexivity |]. split; [reflexivity |].
  apply (@append_above_all_is_next Demo.item None b PriorityCritical
           (after None [OpAppend a])); reflexivity.
Defined.

(** A Low item appended behind one Normal item. *)
Lemma append_behind_keeps_front_example :
  at_or_above PriorityLow (after None [OpAppend a]) <> [] /\
  fst (Peek None (AppendPriority b PriorityLow (after None [OpAppend a])))
    = fst (Peek None (after None [OpAppend a])) /\
  fst (Next None (AppendPriority b PriorityLow (after None [OpAppend a])))
    = fst (Next None (after None [OpAppend a])).
Proof.
  split; [intros H; discriminate H |].
  apply (@append_behind_keeps_front Demo.item None b PriorityLow
           (after None [OpAppend a])).
  intros H; discriminate H.
Defined.

(** Integers queued at the priority they denote: appends interleaved with
    [Next] and [Process], looked at from the Critical level. *)
Lemma each_level_is_fifo_example :
  let ops := [OpAppendPriority 0%Z 0%Z; OpAppendPriority 3%Z 3%Z;
              OpAppend 1%Z; OpNext; OpAppendPriority 3%Z 3%Z; OpProcess;
              OpAppendPriority 3%Z 3%Z] in
  forallb (tagged_op (fun x : Z => x)) ops = true /\
  defined_priority 3%Z = true /\
  of_level (fun x : Z => x) 3%Z (handed ops (fst (run (-1)%Z ops NewQueue)))
    ++ slice_at 3%Z (snd (run (-1)%Z ops NewQueue))
  = of_level (fun x : Z => x) 3%Z (appended ops).
Proof.
  cbv zeta. split; [reflexivity |]. split; [reflexivity |].
  apply (@each_level_is_fifo Z (-1)%Z (fun x : Z => x)); reflexivity.
Defined.

End Concrete.

(** ** [Process] with callbacks that call the queue *)

Section ReentrantFacts.

Lemma append_back_never_returns fuel :
  forall (x : Z) (c : Chan.t) (n : nat),
    ProcessRe (-1)%Z fuel Reentrant.append_back (mkQueue c [] [x] [] []) n
      = None.
Proof.
  induction fuel as [|fuel IH]; intros x c n; [reflexivity|].
  rewrite ProcessRe_step. unfold Next. cbn -[prepSignal ProcessRe].
  unfold Reentrant.append_back. rewrite prepSignal_frame.
  unfold Append, append. cbn -[prepSignal Chan.try_send ProcessRe].
  apply IH.
Qed.

(** C10 fails as stated.  One item is queued ([Len] is 1).  A callback that
    appends a Low item to the same queue on its first two calls is called
    three times before [Process] returns; a callback that appends each item
    back keeps [Process] from returning, whatever the fuel. *)
Lemma Process_with_appending_callback :
  let q := Append 1%Z (@NewQueue Z) in
  fst (Len q) = 1%Z /\
  ProcessRe (-1)%Z 10 (recording Reentrant.append_twice) q ([], 0)
    = Some (([1; 101; 102]%Z, 3), idle 1) /\
  Z.of_nat (length [1; 101; 102]%Z) <> fst (Len q) /\
  (forall fuel, ProcessRe (-1)%Z fuel Reentrant.append_back q 0 = None).
Proof.
  cbv zeta. split; [reflexivity |]. split; [reflexivity |].
  split; [intros H; discriminate H |].
  intros fuel. apply (append_back_never_returns fuel 1%Z (Chan.mk 1 1) 0).
Qed.

(** A callback that only reads [Len], on a queue of two items. *)
Lemma Process_with_callback_keeping_contents_example :
  let q := append_all [(5%Z, PriorityLow); (7%Z, PriorityCritical)] NewQueue in
  (forall (x : Z) (q0 : queue Z) (s0 : Z),
     slices (snd (Reentrant.sum_of_lens x q0 s0)) = slices q0) /\
  length (items q) < 5 /\
  exists trace s' q',
    ProcessRe (-1)%Z 5 (recording Reentrant.sum_of_lens) q ([], 0%Z)
      = Some ((trace, s'), q') /\
    Z.of_nat (length trace) = fst (Len q) /\
    fst (Nexts (-1)%Z (length trace) q) = map (fun x => (x, true)) trace /\
    fst (Len q') = 0%Z.
Proof.
  cbv zeta. split; [intros; reflexivity |]. split; [cbn; lia |].
  apply (@Process_with_callback_keeping_contents Z (-1)%Z Z
           Reentrant.sum_of_lens
           (append_all [(5%Z, PriorityLow); (7%Z, PriorityCritical)] NewQueue)
           0%Z 5).
  - intros; reflexivity.
  - cbn; lia.
Defined.

End ReentrantFacts.
